(** * HotStuff simulator: the per-node protocol state and the scenario driver

    A shallow embedding of [app.py].  The protocol core of the program is
    the three model classes [Proposal], [Vote] and [NodeState] together
    with the body of the "Run Simulation" handler; the network drawing and
    the pacing of the animation have no effect on the protocol state and
    are left out.

    Modelling choices, all read off the source:
    - Python [int]s ([view], [QUORUM]) are [Z]; node and block identifiers
      are [string]s;
    - [received_votes] is a [defaultdict(list)] keyed by the proposal id;
      it is only ever read by key and scanned to feed a [set], so it is a
      [gmap string (list Vote)] and a missing key reads as [[]];
    - [evidence] is a Python [set] of 3-tuples of strings: a [gset];
    - [committed] is a list of block ids in commit order;
    - [highest_qc] is [None] or a QC tuple: an [option];
    - the dictionary [nodes] of the driver is iterated in insertion order
      ([nodes.values()]), so it is the list of the node states in the
      order of [NODE_IDS];
    - [log] is modelled by the sequence of its calls;
    - [step_pause], [st.balloons] and the unused lists [votes] and
      [votes_z] of the handler touch no node and are not modelled. *)

From stdpp Require Import base strings pretty list gmap sorting.
From Stdlib Require Import ZArith Lia Ascii.

Local Open Scope string_scope.
Local Open Scope Z_scope.
Local Open Scope list_scope.

(** ** Proposal and Vote *)

Record Proposal := mkProposal {
  block_id : string;
  parent_id : string;
  view : Z;
  proposer : string
}.

(** [Proposal.id]: the f-string [{block_id}@v{view}]. *)
Definition proposal_id (p : Proposal) : string :=
  block_id p +:+ "@v" +:+ pretty (view p).

Record Vote := mkVote {
  voter : string;
  proposal : Proposal;
  signature : string
}.

(** A QC is the tuple [(proposal, tuple(sorted(voters)))]. *)
Record QC := mkQC {
  qc_proposal : Proposal;
  qc_voters : list string
}.

(** An evidence entry is the tuple [(voter, other proposal id, proposal id)]. *)
Definition Evidence : Type := string * string * string.

(** ** NodeState *)

Record NodeState := mkNodeState {
  node_id : string;
  received_votes : gmap string (list Vote);
  evidence : gset Evidence;
  committed : list string;
  highest_qc : option QC
}.

(** [NodeState.__init__] *)
Definition NodeState_init (nid : string) : NodeState :=
  {| node_id := nid;
     received_votes := ∅;
     evidence := ∅;
     committed := [];
     highest_qc := None |}.

(** [received_votes.get(pid, [])], also the value [received_votes[pid]]
    of the [defaultdict] before an append. *)
Definition votes_for (m : gmap string (list Vote)) (pid : string) : list Vote :=
  default [] (m !! pid).

(** The condition of the inner [if] of [record_vote], in the order the
    source evaluates it. *)
Definition conflicts (ov vote : Vote) : bool :=
  String.eqb (voter ov) (voter vote)
  && (view (proposal ov) =? view (proposal vote))
  && String.eqb (proposer (proposal ov)) (proposer (proposal vote))
  && negb (String.eqb (block_id (proposal ov)) (block_id (proposal vote))).

(** The inner loop [for ov in votes] of [record_vote]. *)
Definition scan_votes (vote : Vote) (votes : list Vote) (ev : gset Evidence)
  : gset Evidence :=
  foldl (fun ev ov =>
           if conflicts ov vote
           then ev ∪ {[ (voter vote, proposal_id (proposal ov),
                         proposal_id (proposal vote)) ]}
           else ev)
        ev votes.

(** The outer loop [for other_pid, votes in self.received_votes.items()],
    with its [continue] on the key of the vote itself. *)
Definition scan_items (vote : Vote) (items : list (string * list Vote))
    (ev : gset Evidence) : gset Evidence :=
  foldl (fun ev item =>
           if String.eqb (fst item) (proposal_id (proposal vote))
           then ev
           else scan_votes vote (snd item) ev)
        ev items.

(** [NodeState.record_vote] *)
Definition record_vote (s : NodeState) (vote : Vote) : NodeState :=
  let pid := proposal_id (proposal vote) in
  let rv := <[pid := votes_for (received_votes s) pid ++ [vote]]> (received_votes s) in
  {| node_id := node_id s;
     received_votes := rv;
     evidence := scan_items vote (map_to_list rv) (evidence s);
     committed := committed s;
     highest_qc := highest_qc s |}.

(** A Python slice [l[:k]] for an arbitrary integer [k]: a negative [k]
    counts from the end. *)
Definition slice_to {A} (l : list A) (k : Z) : list A :=
  if k <? 0 then take (Z.to_nat (Z.of_nat (length l) + k)) l
  else take (Z.to_nat k) l.

(** [sorted] on a list of [str]: the order is the lexicographic one on
    the code points, [String.le]. *)
Definition sorted_strs (l : list string) : list string := merge_sort String.le l.

(** [NodeState.try_form_qc]: the returned value and the node afterwards. *)
Definition try_form_qc (s : NodeState) (p : Proposal) (QUORUM : Z)
  : option QC * NodeState :=
  let pid := proposal_id p in
  let votes := votes_for (received_votes s) pid in
  if QUORUM <=? Z.of_nat (length votes) then
    let qc := mkQC p (sorted_strs (voter <$> slice_to votes QUORUM)) in
    let hq :=
      match highest_qc s with
      | None => Some qc
      | Some h => if view (qc_proposal h) <? view p then Some qc else Some h
      end in
    (Some qc,
     {| node_id := node_id s;
        received_votes := received_votes s;
        evidence := evidence s;
        committed := committed s;
        highest_qc := hq |})
  else (None, s).

(** [b not in self.committed] *)
Definition in_committed (b : string) (l : list string) : bool :=
  existsb (String.eqb b) l.

(** [NodeState.apply_qc_commit] *)
Definition apply_qc_commit (s : NodeState) (qc : QC) : NodeState :=
  let b := block_id (qc_proposal qc) in
  if in_committed b (committed s) then s
  else {| node_id := node_id s;
          received_votes := received_votes s;
          evidence := evidence s;
          committed := committed s ++ [b];
          highest_qc := highest_qc s |}.

(** ** The scenario driver (the body of the "Run Simulation" handler) *)

(** The calls of [log]: an f-string is kept as its payload, a literal
    message as its text. *)
Inductive LogMsg :=
| LeaderIs (view : Z) (leader : string)
| LeaderSends (leader pidA : string) (targetsA : list string)
              (pidB : string) (targetsB : list string)
| VotedFor (v pid : string)
| UnexpectedQC (qcs : list QC)
| EvidenceLine (e : Evidence)
| ViewChange (view : Z) (new_leader : string)
| ProposesSafe (new_leader pid : string)
| QCFormedCommit (pid block : string)
| CommitLine (nid : string) (commits : list string)
| Text (msg : string).

(** A method call on a node state, as the driver performs it. *)
Inductive Call :=
| CallRecordVote (vote : Vote)
| CallTryFormQC (p : Proposal) (QUORUM : Z)
| CallApplyQCCommit (qc : QC).

(** What a run has done so far: the dictionary [nodes], the calls of
    [log] with their [kind], the [Proposal]s constructed and the method
    calls made on the nodes (with the id of the node), each in order. *)
Record World := mkWorld {
  nodes : list NodeState;
  logged : list (LogMsg * string);
  proposals_made : list Proposal;
  calls : list (string * Call)
}.

Definition log (msg : LogMsg) (kind : string) (w : World) : World :=
  mkWorld (nodes w) (logged w ++ [(msg, kind)]) (proposals_made w) (calls w).

(** [Proposal(block_id, parent_id, view, proposer)] *)
Definition new_proposal (b parent : string) (v : Z) (ldr : string) (w : World)
  : Proposal * World :=
  let p := mkProposal b parent v ldr in
  (p, mkWorld (nodes w) (logged w) (proposals_made w ++ [p]) (calls w)).

(** The body of a loop [for nd in nodes.values()]: what it appends to a
    list of QCs, the node afterwards, and the calls it made on the node. *)
Definition NodeBody : Type := NodeState → list QC * NodeState * list Call.

Definition body_record_vote (vote : Vote) : NodeBody :=
  fun nd => ([], record_vote nd vote, [CallRecordVote vote]).

(** [qc = nd.try_form_qc(p, QUORUM)] for each [p] of [ps] in turn, and
    [if qc: qcs.append(qc)]. *)
Definition body_try_form_qc (ps : list Proposal) (QUORUM : Z) : NodeBody :=
  fun nd =>
    foldl (fun acc p =>
             let '(qcs, nd, cs) := acc in
             let '(qc, nd') := try_form_qc nd p QUORUM in
             (qcs ++ option_list qc, nd', cs ++ [CallTryFormQC p QUORUM]))
          ([], nd, []) ps.

Definition body_apply_qc_commit (qc : QC) : NodeBody :=
  fun nd => ([], apply_qc_commit nd qc, [CallApplyQCCommit qc]).

(** [for nd in nodes.values(): body]; the nodes are visited in order and
    the body reads and writes the visited node only. *)
Definition for_each_node (body : NodeBody) (w : World) : list QC * World :=
  let rs := (fun nd => (node_id nd, body nd)) <$> nodes w in
  (concat ((fun r => r.2.1.1) <$> rs),
   mkWorld ((fun r => r.2.1.2) <$> rs) (logged w) (proposals_made w)
           (calls w ++ concat ((fun r => (fun c => (r.1, c)) <$> r.2.2) <$> rs))).

(** [NODE_IDS[i % len(NODE_IDS)]]; [None] is the [ZeroDivisionError] of an
    empty list. *)
Definition index_mod (l : list string) (i : nat) : option string :=
  match l with
  | [] => None
  | _ => l !! (i mod length l)%nat
  end.

(** [gen_node_ids] *)
Definition gen_node_ids (n : nat) : list string :=
  (fun i : nat =>
     if (i <? 26)%nat then String (Ascii.ascii_of_nat (65 + i)) EmptyString
     else "Node" +:+ pretty i) <$> seq 0 n.

(** The variables [qcs], [evidence] and [qcs_z] of the equivocation
    branch, as they stand at its end. *)
Record Demo := mkDemo {
  demo_qcs : list QC;
  demo_evidence : gset Evidence;
  demo_qcs_z : list QC
}.

Section Driver.

(** [hashlib.sha256(s.encode()).hexdigest()] is not part of the program;
    nothing in the protocol state reads a signature. *)
Variable sha256_hexdigest : string → string.

Definition sign (node_id proposal_id : string) : string :=
  let h := sha256_hexdigest (node_id +:+ "|" +:+ proposal_id) in
  "SIG(" +:+ node_id +:+ ":" +:+ String.substring 0 6 h +:+ ")".

(** [Vote(v, p, sign(v, p.id()))] *)
Definition signed_vote (p : Proposal) (v : string) : Vote :=
  mkVote v p (sign v (proposal_id p)).

(** One turn of a voting loop: the vote of [v] for [p] is delivered to
    every node and logged. *)
Definition cast_vote (p : Proposal) (w : World) (v : string) : World :=
  let vote := signed_vote p v in
  log (VotedFor v (proposal_id p)) "info"
      (for_each_node (body_record_vote vote) w).2.

(** [for v in targets: ...] *)
Definition voting (p : Proposal) (targets : list string) (w : World) : World :=
  foldl (cast_vote p) w targets.

(** The evidence of all nodes, collected in one set. *)
Definition collect_evidence (nds : list NodeState) : gset Evidence :=
  foldl (fun acc nd => acc ∪ evidence nd) ∅ nds.

(** The attack round: two proposals for the view, each shown to its
    targets, every vote delivered to every node, then every node asked
    for a QC of each proposal. *)
Definition attack_round (view : Z) (current_leader : string)
    (targetsA targetsB : list string) (QUORUM : Z) (w : World)
  : Proposal * Proposal * list QC * World :=
  let '(propA, w) := new_proposal "X" "GENESIS" view current_leader w in
  let '(propB, w) := new_proposal "Y" "GENESIS" view current_leader w in
  let w := log (LeaderSends current_leader (proposal_id propA) targetsA
                            (proposal_id propB) targetsB) "info" w in
  let w := voting propA targetsA w in
  let w := voting propB targetsB w in
  let '(qcs, w) := for_each_node (body_try_form_qc [propA; propB] QUORUM) w in
  (propA, propB, qcs, w).

(** The branch [attack_type.startswith("Equivocation")].  The loop
    [for e in evidence] visits a [set], in an order Python does not fix;
    [elements] stands for it. *)
Definition equivocation_demo (NODE_IDS : list string) (QUORUM : Z)
    (view : Z) (leader_index : nat) (current_leader : string) (w : World)
  : option (Demo * World) :=
  let half := (length NODE_IDS / 2)%nat in
  let targetsA := take half NODE_IDS in
  let targetsB := drop half NODE_IDS in
  let '(propA, propB, qcs, w) :=
    attack_round view current_leader targetsA targetsB QUORUM w in
  let w := match qcs with
           | [] => log (Text "No QC formed for X or Y (neither side reached quorum). Safety preserved. 🔒") "success" w
           | _ => log (UnexpectedQC qcs) "warning" w
           end in
  let ev := collect_evidence (nodes w) in
  let w := if decide (ev = ∅)
           then log (Text "No equivocation evidence found.") "info" w
           else foldl (fun w e => log (EvidenceLine e) "warning" w)
                      (log (Text "Equivocation evidence detected across nodes:") "warning" w)
                      (elements ev) in
  let view := view + 1 in
  let leader_index := (leader_index + 1)%nat in
  new_leader ← index_mod NODE_IDS leader_index;
  let w := log (ViewChange view new_leader) "info" w in
  let '(safe_prop, w) := new_proposal "Z" "GENESIS" view new_leader w in
  let w := log (ProposesSafe new_leader (proposal_id safe_prop)) "info" w in
  let w := voting safe_prop NODE_IDS w in
  let '(qcs_z, w) := for_each_node (body_try_form_qc [safe_prop] QUORUM) w in
  let w := match qcs_z with
           | qc :: _ =>
               log (QCFormedCommit (proposal_id safe_prop) (block_id safe_prop)) "success"
                   (for_each_node (body_apply_qc_commit qc) w).2
           | [] => log (Text "No QC formed for Z (unexpected).") "error" w
           end in
  let w := log (Text "Final committed blocks per node (sample):") "info" w in
  let w := foldl (fun w nd => log (CommitLine (node_id nd) (committed nd)) "info" w)
                 w (nodes w) in
  Some (mkDemo qcs ev qcs_z, w).

(** The handler of the button: [N] and [F] are the two sliders,
    [faulty_leader] and [attack_type] the two select boxes.  [None] is a
    run ended by an exception. *)
Definition run_simulation (N F : nat) (faulty_leader attack_type : string)
  : option (option Demo * World) :=
  let QUORUM := 2 * Z.of_nat F + 1 in
  let NODE_IDS := gen_node_ids N in
  let w := mkWorld (NodeState_init <$> NODE_IDS) [] [] [] in
  let leader_index := 0%nat in
  let view := 1 in
  current_leader ←
    (if negb (String.eqb faulty_leader "None") then Some faulty_leader
     else index_mod NODE_IDS leader_index);
  let w := log (LeaderIs view current_leader) "info" w in
  '(demo, w) ←
    (if String.prefix "Equivocation" attack_type then
       '(d, w) ← equivocation_demo NODE_IDS QUORUM view leader_index current_leader w;
       Some (Some d, w)
     else if String.prefix "Withhold QC" attack_type then
       Some (None, log (Text "Withhold QC scenario not fully implemented in UI version yet. Please try Equivocation demo.") "info" w)
     else
       Some (None, log (Text "Other attack types are placeholders. Equivocation demo is the interactive part.") "info" w));
  Some (demo, log (Text "Simulation complete.") "info" w).

End Driver.

(** ** Sequences of operations on one node *)

(** The effect of a method call on the node it is made on. *)
Definition perform (s : NodeState) (c : Call) : NodeState :=
  match c with
  | CallRecordVote vote => record_vote s vote
  | CallTryFormQC p QUORUM => (try_form_qc s p QUORUM).2
  | CallApplyQCCommit qc => apply_qc_commit s qc
  end.

Definition perform_all (s : NodeState) (cs : list Call) : NodeState :=
  foldl perform s cs.

(** The votes of a voter conflict as [record_vote] understands it. *)
Definition equivocates (ov vote : Vote) : Prop :=
  voter ov = voter vote
  ∧ view (proposal ov) = view (proposal vote)
  ∧ proposer (proposal ov) = proposer (proposal vote)
  ∧ block_id (proposal ov) ≠ block_id (proposal vote).

(** The entry that [record_vote] adds for an older vote [ov] when [vote]
    arrives. *)
Definition entry (ov vote : Vote) : Evidence :=
  (voter vote, proposal_id (proposal ov), proposal_id (proposal vote)).

(** The votes a sequence of calls delivers to the node, in order. *)
Definition ingested (cs : list Call) : list Vote :=
  omap (fun c => match c with CallRecordVote vote => Some vote | _ => None end) cs.

(** Who voted, and for which proposal id. *)
Definition vote_key (vote : Vote) : string * string :=
  (voter vote, proposal_id (proposal vote)).

(** Every stored list of votes is kept, possibly with votes appended. *)
Definition votes_grow (m m' : gmap string (list Vote)) : Prop :=
  ∀ k l, m !! k = Some l → ∃ l', m' !! k = Some (l ++ l').

(** One entry per accused voter and pair of proposal ids, whichever of
    the two was seen first. *)
Definition one_entry_per_pair (ev : gset Evidence) : Prop :=
  ∀ a p q, (a, p, q) ∈ ev → (a, q, p) ∈ ev → p = q.

(** The number of distinct voters of a QC. *)
Definition distinct_voters (qc : QC) : nat :=
  size (list_to_set (qc_voters qc) : gset string).

(** Two votes of validator C for the two proposals of an equivocating
    leader A in view 1, and a vote of C in view 2. *)
Definition vote_C_X : Vote :=
  mkVote "C" (mkProposal "X" "GENESIS" 1 "A") "SIG(C:0f3a9c)".
Definition vote_C_Y : Vote :=
  mkVote "C" (mkProposal "Y" "GENESIS" 1 "A") "SIG(C:71be20)".
Definition vote_C_Z : Vote :=
  mkVote "C" (mkProposal "Z" "GENESIS" 2 "B") "SIG(C:c4d811)".

(** The reading of the QC rule that counts voters: a QC for the quorum
    [2f+1] names at least that many different voters. *)
Definition quorum_of_distinct_voters (s : NodeState) (p : Proposal) (f : nat) : Prop :=
  ∀ qc, (try_form_qc s p (2 * Z.of_nat f + 1)).1 = Some qc →
        2 * Z.of_nat f + 1 ≤ Z.of_nat (distinct_voters qc).

(** A vote is [stored] at a node when it is in the list of its own
    proposal id. *)
Definition stored (s : NodeState) (vote : Vote) : Prop :=
  vote ∈ votes_for (received_votes s) (proposal_id (proposal vote)).

(** Two votes of validator D, for X in view 1 and for Z in view 2. *)
Definition vote_D_X : Vote :=
  mkVote "D" (mkProposal "X" "GENESIS" 1 "A") "SIG(D:a0c3f1)".
Definition vote_D_Z : Vote :=
  mkVote "D" (mkProposal "Z" "GENESIS" 2 "B") "SIG(D:3b7e55)".

(** The outcome of a finished run of the equivocation demo: the three
    variables of the branch and, per node, its id, committed list,
    evidence and highest QC. *)
Definition run_summary (r : option (option Demo * World)) :=
  match r with
  | Some (Some d, w) =>
      Some (demo_qcs d, elements (demo_evidence d), demo_qcs_z d,
            (λ nd, (node_id nd, committed nd, elements (evidence nd), highest_qc nd))
              <$> nodes w)
  | _ => None
  end.

(** ** The sidebar controls *)

(** [max_f = (N - 1) // 3], the upper end of the slider of [f]. *)
Definition max_f (N : Z) : Z := (N - 1) / 3.

(** [default_f = max(1, min(2, max_f))], the value the slider starts at. *)
Definition default_f (N : Z) : Z := Z.max 1 (Z.min 2 (max_f N)).

(** [QUORUM = 2 * F + 1] *)
Definition QUORUM_of (F : Z) : Z := 2 * F + 1.

(** No character [v] in a string. *)
Definition no_v (s : string) : Prop :=
  "v"%char ∉ String.list_ascii_of_string s.

(** ** What the equivocation demo does to one node *)

(** The calls the branch makes on each node, in order: the votes for X,
    the votes for Y, the two polls, the votes for Z, the poll for Z. *)
Definition demo_calls (sha : string → string) (view : Z)
    (leader new_leader : string) (targetsA targetsB NODE_IDS : list string)
    (QUORUM : Z) : list Call :=
  let propA := mkProposal "X" "GENESIS" view leader in
  let propB := mkProposal "Y" "GENESIS" view leader in
  let propZ := mkProposal "Z" "GENESIS" (view + 1) new_leader in
  (CallRecordVote <$> (signed_vote sha propA <$> targetsA))
  ++ (CallRecordVote <$> (signed_vote sha propB <$> targetsB))
  ++ [CallTryFormQC propA QUORUM; CallTryFormQC propB QUORUM]
  ++ (CallRecordVote <$> (signed_vote sha propZ <$> NODE_IDS))
  ++ [CallTryFormQC propZ QUORUM].

(** Two node states that differ at most in the id of the node. *)
Definition same_protocol_state (s s' : NodeState) : Prop :=
  received_votes s = received_votes s' ∧ evidence s = evidence s'
  ∧ committed s = committed s' ∧ highest_qc s = highest_qc s'.

(** * Properties *)

(** ** Basic facts about the node operations *)

(** Decide a closed goal by evaluation. *)
Ltac by_evaluation :=
  match goal with
  | |- ?P => apply (@bool_decide_unpack P _); vm_compute; exact I
  end.

Lemma conflicts_spec ov vote : conflicts ov vote = true ↔ equivocates ov vote.
Proof.
  unfold conflicts, equivocates.
  rewrite !andb_true_iff, negb_true_iff, !String.eqb_eq, Z.eqb_eq, String.eqb_neq.
  tauto.
Qed.

Lemma list_ascii_of_string_app s t :
  String.list_ascii_of_string (s +:+ t) = String.list_ascii_of_string s ++ String.list_ascii_of_string t.
Proof. induction s as [|a s IH]; [done|]. cbn. by rewrite <-IH. Qed.

Lemma string_app_inj_r t s1 s2 : s1 +:+ t = s2 +:+ t → s1 = s2.
Proof.
  intros Heq. apply (f_equal String.list_ascii_of_string) in Heq.
  rewrite !list_ascii_of_string_app in Heq. apply app_inv_tail in Heq.
  rewrite <-(String.string_of_list_ascii_of_string s1), Heq.
  apply String.string_of_list_ascii_of_string.
Qed.

Lemma proposal_id_block_ne p q :
  view p = view q → block_id p ≠ block_id q → proposal_id p ≠ proposal_id q.
Proof.
  unfold proposal_id. intros -> Hb Heq. apply Hb.
  by apply string_app_inj_r in Heq.
Qed.

Lemma elem_of_scan_votes vote votes ev e :
  e ∈ scan_votes vote votes ev ↔
  e ∈ ev ∨ ∃ ov, ov ∈ votes ∧ conflicts ov vote = true ∧ e = entry ov vote.
Proof.
  unfold scan_votes. revert ev. induction votes as [|ov votes IH]; intros ev; simpl.
  - split; [by left|]. intros [?|(ov & Hov & _)]; [done|]. by apply elem_of_nil in Hov.
  - rewrite IH. destruct (conflicts ov vote) eqn:Hc.
    + rewrite elem_of_union, elem_of_singleton. split.
      * intros [[? | ->] |(ov' & ? & ? & ?)]; eauto.
        -- right. exists ov. split; [left|done].
        -- right. exists ov'. split; [by right|done].
      * intros [?|(ov' & [-> | ?]%elem_of_cons & ? & ->)]; eauto.
    + split.
      * intros [?|(ov' & ? & ? & ?)]; eauto.
        right. exists ov'. split; [by right|done].
      * intros [?|(ov' & [-> | ?]%elem_of_cons & ? & ->)]; eauto. congruence.
Qed.

Lemma elem_of_scan_items vote items ev e :
  e ∈ scan_items vote items ev ↔
  e ∈ ev ∨ ∃ k votes ov, (k, votes) ∈ items ∧ k ≠ proposal_id (proposal vote)
             ∧ ov ∈ votes ∧ conflicts ov vote = true ∧ e = entry ov vote.
Proof.
  unfold scan_items. revert ev. induction items as [|[k votes] items IH]; intros ev; simpl.
  - split; [by left|]. intros [?|(k & vs & ov & Hin & _)]; [done|].
    by apply elem_of_nil in Hin.
  - rewrite IH. destruct (String.eqb_spec k (proposal_id (proposal vote))) as [->|Hk].
    + split.
      * intros [?|(k' & vs & ov & ? & ?)]; eauto.
        right. exists k', vs, ov. split; [by right|done].
      * intros [?|(k' & vs & ov & [[= -> ->] | ?]%elem_of_cons & Hne & ?)]; eauto 10.
        done.
    + rewrite elem_of_scan_votes. split.
      * intros [[?|(ov & ? & ? & ?)]|(k' & vs & ov & ? & ?)]; eauto.
        -- right. exists k, votes, ov. split; [left|done].
        -- right. exists k', vs, ov. split; [by right|done].
      * intros [?|(k' & vs & ov & [[= -> ->] | ?]%elem_of_cons & Hne & ? & ? & ?)];
          eauto 10.
Qed.

Lemma votes_for_record_vote s vote k :
  votes_for (received_votes (record_vote s vote)) k =
  if decide (k = proposal_id (proposal vote))
  then votes_for (received_votes s) k ++ [vote]
  else votes_for (received_votes s) k.
Proof.
  unfold votes_for at 1. simpl. case_decide as Hk.
  - subst k. by rewrite lookup_insert_eq.
  - by rewrite lookup_insert_ne.
Qed.

(** The entries [record_vote] adds are exactly those of the conflicting
    votes stored under another proposal id. *)
Lemma elem_of_evidence_record_vote s vote e :
  e ∈ evidence (record_vote s vote) ↔
  e ∈ evidence s ∨
  ∃ k ov, k ≠ proposal_id (proposal vote) ∧ ov ∈ votes_for (received_votes s) k
          ∧ conflicts ov vote = true ∧ e = entry ov vote.
Proof.
  simpl. rewrite elem_of_scan_items. split.
  - intros [?|(k & vs & ov & Hin & Hk & Hov & Hc & ->)]; [by left|right].
    apply elem_of_map_to_list in Hin. rewrite lookup_insert_ne in Hin by done.
    exists k, ov. unfold votes_for. by rewrite Hin.
  - intros [?|(k & ov & Hk & Hov & Hc & ->)]; [by left|right].
    unfold votes_for in Hov. destruct (received_votes s !! k) as [vs|] eqn:Hl;
      simpl in Hov; [|by apply elem_of_nil in Hov].
    exists k, vs, ov. split; [|done].
    apply elem_of_map_to_list. by rewrite lookup_insert_ne.
Qed.

Lemma try_form_qc_frame s p Q :
  let s' := (try_form_qc s p Q).2 in
  node_id s' = node_id s ∧ received_votes s' = received_votes s
  ∧ evidence s' = evidence s ∧ committed s' = committed s.
Proof. unfold try_form_qc. by case_match. Qed.

Lemma apply_qc_commit_frame s qc :
  let s' := apply_qc_commit s qc in
  node_id s' = node_id s ∧ received_votes s' = received_votes s
  ∧ evidence s' = evidence s ∧ highest_qc s' = highest_qc s.
Proof. unfold apply_qc_commit. by case_match. Qed.

(** Vote lists and evidence only grow. *)
Lemma perform_votes_prefix s c k :
  votes_for (received_votes s) k `prefix_of` votes_for (received_votes (perform s c)) k.
Proof.
  destruct c as [vote|p Q|qc]; unfold perform.
  - rewrite votes_for_record_vote. case_decide; [by apply prefix_app_r|done].
  - by destruct (try_form_qc_frame s p Q) as (_ & -> & _).
  - by destruct (apply_qc_commit_frame s qc) as (_ & -> & _).
Qed.

Lemma perform_evidence_subseteq s c : evidence s ⊆ evidence (perform s c).
Proof.
  destruct c as [vote|p Q|qc]; unfold perform.
  - intros e He. apply elem_of_evidence_record_vote. by left.
  - by destruct (try_form_qc_frame s p Q) as (_ & _ & -> & _).
  - by destruct (apply_qc_commit_frame s qc) as (_ & _ & -> & _).
Qed.

Lemma perform_all_votes_prefix cs s k :
  votes_for (received_votes s) k
    `prefix_of` votes_for (received_votes (perform_all s cs)) k.
Proof.
  revert s. induction cs as [|c cs IH]; intros s; simpl; [done|].
  etrans; [apply perform_votes_prefix|apply IH].
Qed.

Lemma perform_all_evidence_subseteq cs s :
  evidence s ⊆ evidence (perform_all s cs).
Proof.
  revert s. induction cs as [|c cs IH]; intros s; simpl; [done|].
  etrans; [apply perform_evidence_subseteq|apply IH].
Qed.

Lemma stored_perform_all cs s vote : stored s vote → stored (perform_all s cs) vote.
Proof.
  unfold stored. intros Hin.
  by eapply elem_of_prefix; [|apply perform_all_votes_prefix].
Qed.

Lemma stored_after_record cs s vote :
  CallRecordVote vote ∈ cs → stored (perform_all s cs) vote.
Proof.
  revert s. induction cs as [|c cs IH]; intros s Hin; [by apply elem_of_nil in Hin|].
  apply elem_of_cons in Hin as [<-|Hin]; simpl; [|by apply IH].
  apply stored_perform_all. unfold stored. simpl perform.
  rewrite votes_for_record_vote, decide_True by done.
  apply elem_of_app. right. by left.
Qed.

Lemma entry_after_record cs s ov vote :
  stored s ov → equivocates ov vote → CallRecordVote vote ∈ cs →
  entry ov vote ∈ evidence (perform_all s cs).
Proof.
  intros Hst Heq. revert s Hst.
  induction cs as [|c cs IH]; intros s Hst Hin; [by apply elem_of_nil in Hin|].
  apply elem_of_cons in Hin as [<-|Hin]; simpl.
  - apply perform_all_evidence_subseteq. simpl.
    apply elem_of_evidence_record_vote. right.
    exists (proposal_id (proposal ov)), ov. split_and!; [|done| |done].
    + destruct Heq as (_ & ? & _ & ?). by apply proposal_id_block_ne.
    + by apply conflicts_spec.
  - apply IH; [|done]. by apply (stored_perform_all [c]).
Qed.

Lemma equivocates_sym ov vote : equivocates ov vote → equivocates vote ov.
Proof. intros (? & ? & ? & ?). repeat split; congruence. Qed.

Lemma detected_in_order s cs i j v1 v2 :
  equivocates v1 v2 → (i < j)%nat →
  cs !! i = Some (CallRecordVote v1) → cs !! j = Some (CallRecordVote v2) →
  entry v1 v2 ∈ evidence (perform_all s cs).
Proof.
  intros Heq Hij Hi Hj. rewrite <-(take_drop j cs).
  unfold perform_all. rewrite foldl_app.
  apply entry_after_record; [|done|].
  - apply stored_after_record. apply list_elem_of_lookup. exists i.
    by rewrite lookup_take_lt.
  - apply list_elem_of_lookup. exists 0%nat.
    by rewrite lookup_drop, Nat.add_0_r.
Qed.

(** ** Equivocation detection *)

(** C2. Completeness of the detection, whatever the order: when a node has
    recorded two votes of one voter for proposals of the same view and
    proposer with different block ids (at two different places of any
    sequence of calls, from any state), its evidence holds the entry of
    that voter with the ids of the two proposals, the one recorded first
    coming first. *)
Theorem equivocation_detected (s : NodeState) (cs : list Call) (i j : nat)
    (v1 v2 : Vote) :
  voter v1 = voter v2 →
  view (proposal v1) = view (proposal v2) →
  proposer (proposal v1) = proposer (proposal v2) →
  block_id (proposal v1) ≠ block_id (proposal v2) →
  i ≠ j →
  cs !! i = Some (CallRecordVote v1) →
  cs !! j = Some (CallRecordVote v2) →
  let s' := perform_all s cs in
  (voter v1, proposal_id (proposal v1), proposal_id (proposal v2)) ∈ evidence s'
  ∨ (voter v1, proposal_id (proposal v2), proposal_id (proposal v1)) ∈ evidence s'.
Proof.
  intros Hv Hw Hp Hb Hij Hi Hj s'.
  assert (equivocates v1 v2) as Heq by done.
  destruct (decide (i < j)%nat) as [Hlt|Hge].
  - left. rewrite Hv. by apply (detected_in_order s cs i j).
  - right. apply (detected_in_order s cs j i); [by apply equivocates_sym|lia|done..].
Qed.

Lemma ingested_snoc cs c : ingested (cs ++ [c]) = ingested cs ++ ingested [c].
Proof. unfold ingested. by rewrite omap_app. Qed.

(** What a node that started empty holds comes from the votes it was
    given: every stored vote was delivered, under its own proposal id, and
    every entry of the evidence is that of two delivered votes that
    conflict, the older one first. *)
Lemma reachable_origin nid cs :
  let s := perform_all (NodeState_init nid) cs in
  (∀ k ov, ov ∈ votes_for (received_votes s) k →
     proposal_id (proposal ov) = k ∧ ∃ i, ingested cs !! i = Some ov)
  ∧ (∀ e, e ∈ evidence s →
       ∃ i j ov vote, (i < j)%nat ∧ ingested cs !! i = Some ov
         ∧ ingested cs !! j = Some vote ∧ equivocates ov vote ∧ e = entry ov vote).
Proof.
  induction cs as [|c cs IH] using rev_ind; simpl.
  - split.
    + intros k ov Hin. unfold votes_for in Hin. rewrite lookup_empty in Hin.
      by apply elem_of_nil in Hin.
    + intros e Hin. by apply not_elem_of_empty in Hin.
  - unfold perform_all in *. rewrite foldl_app. simpl.
    set (s := foldl perform (NodeState_init nid) cs) in *.
    destruct IH as [IHv IHe]. rewrite ingested_snoc.
    assert (∀ k ov, ov ∈ votes_for (received_votes s) k →
              proposal_id (proposal ov) = k
              ∧ ∃ i, (ingested cs ++ ingested [c]) !! i = Some ov) as Hv.
    { intros k ov [? [i Hi]]%IHv. split; [done|]. exists i.
      by apply lookup_app_l_Some. }
    assert (∀ e, e ∈ evidence s →
              ∃ i j ov vote, (i < j)%nat
                ∧ (ingested cs ++ ingested [c]) !! i = Some ov
                ∧ (ingested cs ++ ingested [c]) !! j = Some vote
                ∧ equivocates ov vote ∧ e = entry ov vote) as He.
    { intros e (i & j & ov & vote & ? & ? & ? & ? & ?)%IHe.
      exists i, j, ov, vote.
      repeat (split; [by auto using lookup_app_l_Some|]). done. }
    destruct c as [vote|p Q|qc]; unfold perform.
    + assert ((ingested cs ++ ingested [CallRecordVote vote]) !! length (ingested cs)
              = Some vote) as Hlast.
      { by rewrite lookup_app_r, Nat.sub_diag by lia. }
      split.
      * intros k ov. rewrite votes_for_record_vote. case_decide as Hk; [|by apply Hv].
        intros [Hin|Hin%list_elem_of_singleton]%elem_of_app; [by apply Hv|].
        subst. eauto.
      * intros e [Hin|(k & ov & Hk & Hov & Hc & ->)]%elem_of_evidence_record_vote;
          [by apply He|].
        destruct (IHv _ _ Hov) as [_ [i Hi]].
        exists i, (length (ingested cs)), ov, vote.
        split; [by eapply lookup_lt_Some|].
        split; [by apply lookup_app_l_Some|].
        split; [done|]. split; [by apply conflicts_spec|done].
    + destruct (try_form_qc_frame s p Q) as (_ & -> & -> & _). by split.
    + destruct (apply_qc_commit_frame s qc) as (_ & -> & -> & _). by split.
Qed.

(** C3. No false equivocation: at a node that started empty, after any
    sequence of calls, every entry of the evidence comes from two recorded
    votes of the accused voter for proposals of the same view and proposer
    with different block ids; so a voter whose recorded votes are, two by
    two, for different views or for one block id with different proposers
    is never accused. *)
Theorem no_false_equivocation (nid : string) (cs : list Call) :
  let s := perform_all (NodeState_init nid) cs in
  (∀ a p q, (a, p, q) ∈ evidence s →
     ∃ i j ov vote, (i < j)%nat ∧ ingested cs !! i = Some ov
       ∧ ingested cs !! j = Some vote
       ∧ voter ov = a ∧ voter vote = a
       ∧ view (proposal ov) = view (proposal vote)
       ∧ proposer (proposal ov) = proposer (proposal vote)
       ∧ block_id (proposal ov) ≠ block_id (proposal vote)
       ∧ p = proposal_id (proposal ov) ∧ q = proposal_id (proposal vote))
  ∧ (∀ a,
       (∀ i j ov vote, (i < j)%nat → ingested cs !! i = Some ov →
          ingested cs !! j = Some vote → voter ov = a → voter vote = a →
          view (proposal ov) ≠ view (proposal vote)
          ∨ (block_id (proposal ov) = block_id (proposal vote)
             ∧ proposer (proposal ov) ≠ proposer (proposal vote))) →
       ∀ p q, (a, p, q) ∉ evidence s).
Proof.
  intros s.
  assert (∀ a p q, (a, p, q) ∈ evidence s →
     ∃ i j ov vote, (i < j)%nat ∧ ingested cs !! i = Some ov
       ∧ ingested cs !! j = Some vote
       ∧ voter ov = a ∧ voter vote = a
       ∧ view (proposal ov) = view (proposal vote)
       ∧ proposer (proposal ov) = proposer (proposal vote)
       ∧ block_id (proposal ov) ≠ block_id (proposal vote)
       ∧ p = proposal_id (proposal ov) ∧ q = proposal_id (proposal vote)) as Hfirst.
  { intros a p q Hin.
    destruct (reachable_origin nid cs) as [_ He].
    destruct (He _ Hin) as (i & j & ov & vote & Hij & Hi & Hj & Heq & Hentry).
    injection Hentry as -> -> ->. destruct Heq as (? & ? & ? & ?).
    exists i, j, ov, vote. by split_and!. }
  split; [done|].
  intros a Hpairs p q Hin.
  destruct (Hfirst _ _ _ Hin) as (i & j & ov & vote & Hij & Hi & Hj & Ha & Hb & ? & ? & ? & _).
  destruct (Hpairs i j ov vote Hij Hi Hj Ha Hb) as [?|[? ?]]; done.
Qed.

Lemma equivocation_detected_witness :
  let s' := perform_all (NodeState_init "B")
              [CallRecordVote vote_C_Y; CallRecordVote vote_C_Z;
               CallRecordVote vote_C_X] in
  ("C", "X@v1", "Y@v1") ∈ evidence s' ∨ ("C", "Y@v1", "X@v1") ∈ evidence s'.
Proof.
  apply (equivocation_detected (NodeState_init "B")
           [CallRecordVote vote_C_Y; CallRecordVote vote_C_Z;
            CallRecordVote vote_C_X] 2 0 vote_C_X vote_C_Y);
    [reflexivity|reflexivity|reflexivity|discriminate|lia|reflexivity|reflexivity].
Defined.

Lemma no_false_equivocation_witness :
  let cs := [CallRecordVote vote_C_X; CallRecordVote vote_D_X;
             CallRecordVote vote_C_Y; CallRecordVote vote_D_Z] in
  let s := perform_all (NodeState_init "B") cs in
  (∃ i j ov vote, (i < j)%nat ∧ ingested cs !! i = Some ov
     ∧ ingested cs !! j = Some vote
     ∧ voter ov = "C" ∧ voter vote = "C"
     ∧ view (proposal ov) = view (proposal vote)
     ∧ proposer (proposal ov) = proposer (proposal vote)
     ∧ block_id (proposal ov) ≠ block_id (proposal vote)
     ∧ "X@v1" = proposal_id (proposal ov) ∧ "Y@v1" = proposal_id (proposal vote))
  ∧ (∀ p q, ("D", p, q) ∉ evidence s).
Proof.
  intros cs s.
  destruct (no_false_equivocation "B" cs) as [Honly Hnever]. split.
  - apply (Honly "C" "X@v1" "Y@v1"). by_evaluation.
  - apply (Hnever "D"). intros i j ov vote Hij Hi Hj Ha Hb.
    destruct i as [|[|[|[|i]]]], j as [|[|[|[|j]]]]; simpl in Hi, Hj;
      try lia; try discriminate;
      injection Hi as <-; injection Hj as <-; try discriminate.
    left. simpl. lia.
Defined.

(** ** Deduplication of the evidence *)

Lemma evidence_entry_swapped :
  ¬ one_entry_per_pair
      (evidence (perform_all (NodeState_init "B")
                   [CallRecordVote vote_C_X; CallRecordVote vote_C_Y;
                    CallRecordVote vote_C_X])).
Proof.
  intros Hone. specialize (Hone "C" "X@v1" "Y@v1").
  assert ("X@v1" = "Y@v1") as Habs; [|discriminate Habs].
  apply Hone; by_evaluation.
Qed.

(** C4 (amended). The evidence is a set of tuples (voter, id stored
    first, id recorded after it) with no canonical order of the two ids.
    At a node that started empty and recorded no voter's vote for one
    proposal id twice, the set holds at most one entry per voter and pair
    of proposal ids: the two orders are never both there. *)
Theorem evidence_one_entry_without_duplicates (nid : string) (cs : list Call) :
  NoDup (vote_key <$> ingested cs) →
  one_entry_per_pair (evidence (perform_all (NodeState_init nid) cs)).
Proof.
  intros Hnd a p q Hpq Hqp. exfalso.
  destruct (reachable_origin nid cs) as [_ Horigin].
  destruct (Horigin _ Hpq)
    as (i & j & ov & vote & Hij & Hi & Hj & (Ha & _) & [= Hb -> ->]).
  destruct (Horigin _ Hqp)
    as (i' & j' & ov' & vote' & Hij' & Hi' & Hj' & (Ha' & _) & [= Hb' Hq Hp]).
  assert (∀ n (v : Vote), ingested cs !! n = Some v →
            (vote_key <$> ingested cs) !! n = Some (vote_key v)) as Hkey.
  { intros n v Hn. by rewrite list_lookup_fmap, Hn. }
  assert (vote_key ov = vote_key vote') as Hsame1.
  { unfold vote_key. congruence. }
  assert (vote_key vote = vote_key ov') as Hsame2.
  { unfold vote_key. congruence. }
  assert (i = j') as ->.
  { apply (NoDup_lookup _ _ _ (vote_key ov) Hnd); [by apply Hkey|].
    rewrite Hsame1. by apply Hkey. }
  assert (j = i') as ->.
  { apply (NoDup_lookup _ _ _ (vote_key vote) Hnd); [by apply Hkey|].
    rewrite Hsame2. by apply Hkey. }
  lia.
Qed.

Lemma evidence_one_entry_without_duplicates_witness :
  one_entry_per_pair
    (evidence (perform_all (NodeState_init "B")
                 [CallRecordVote vote_C_X; CallRecordVote vote_C_Y;
                  CallRecordVote vote_C_Z])).
Proof.
  apply (evidence_one_entry_without_duplicates "B"
           [CallRecordVote vote_C_X; CallRecordVote vote_C_Y;
            CallRecordVote vote_C_Z]).
  by_evaluation.
Defined.

(** ** Quorum certificates *)

Lemma slice_to_nonneg {A} (l : list A) (k : Z) :
  0 ≤ k → slice_to l k = take (Z.to_nat k) l.
Proof. intros Hk. unfold slice_to. by rewrite (proj2 (Z.ltb_ge k 0)). Qed.

Lemma try_form_qc_Some s p Q qc :
  (try_form_qc s p Q).1 = Some qc →
  Q ≤ Z.of_nat (length (votes_for (received_votes s) (proposal_id p)))
  ∧ qc = mkQC p (sorted_strs
                   (voter <$> slice_to (votes_for (received_votes s) (proposal_id p)) Q)).
Proof.
  unfold try_form_qc. destruct (Z.leb_spec Q
    (Z.of_nat (length (votes_for (received_votes s) (proposal_id p)))));
    simpl; [|done].
  intros [= <-]. by split.
Qed.

Lemma try_form_qc_None s p Q :
  Z.of_nat (length (votes_for (received_votes s) (proposal_id p))) < Q →
  try_form_qc s p Q = (None, s).
Proof.
  intros Hlt. unfold try_form_qc.
  by rewrite (proj2 (Z.leb_gt Q _)).
Qed.

Lemma quorum_of_one_voter :
  ¬ quorum_of_distinct_voters
      (perform_all (NodeState_init "B")
         [CallRecordVote vote_C_X; CallRecordVote vote_C_X; CallRecordVote vote_C_X])
      (proposal vote_C_X) 1.
Proof.
  intros Hq.
  specialize (Hq (mkQC (proposal vote_C_X) ["C"; "C"; "C"]) eq_refl).
  vm_compute in Hq. by apply Hq.
Qed.

(** C5 (amended). A QC returned by [try_form_qc] for a quorum [Q ≥ 0]
    (so for every [Q = 2f+1]) is for the proposal asked, and its voters are
    those of the first [Q] votes stored for the proposal, one entry per
    vote: [Q] entries, a voter who voted twice being listed twice.  When
    these first [Q] votes are by different voters, the QC names exactly [Q]
    different voters. *)
Theorem qc_voters_count (s : NodeState) (p : Proposal) (Q : Z) (qc : QC) :
  0 ≤ Q →
  (try_form_qc s p Q).1 = Some qc →
  let first_votes := take (Z.to_nat Q) (votes_for (received_votes s) (proposal_id p)) in
  qc_proposal qc = p
  ∧ qc_voters qc ≡ₚ voter <$> first_votes
  ∧ Z.of_nat (length (qc_voters qc)) = Q
  ∧ (NoDup (voter <$> first_votes) → Z.of_nat (distinct_voters qc) = Q).
Proof.
  intros HQ [Hlen ->]%try_form_qc_Some first_votes. simpl.
  rewrite slice_to_nonneg by done. fold first_votes.
  assert (sorted_strs (voter <$> first_votes) ≡ₚ voter <$> first_votes) as Hperm.
  { apply merge_sort_Permutation. }
  assert (Z.of_nat (length (sorted_strs (voter <$> first_votes))) = Q) as Hcount.
  { rewrite Hperm, length_fmap. unfold first_votes. rewrite length_take_le; lia. }
  split_and!; [done..|].
  intros Hnd. unfold distinct_voters. simpl.
  rewrite size_list_to_set; [done|]. by rewrite Hperm.
Qed.

Lemma qc_voters_count_witness :
  let s := perform_all (NodeState_init "B")
             [CallRecordVote vote_C_X;
              CallRecordVote (mkVote "A" (proposal vote_C_X) "SIG(A:5e01d7)");
              CallRecordVote (mkVote "B" (proposal vote_C_X) "SIG(B:9921aa)")] in
  let qc := mkQC (proposal vote_C_X) ["A"; "B"; "C"] in
  (try_form_qc s (proposal vote_C_X) 3).1 = Some qc
  ∧ Z.of_nat (length (qc_voters qc)) = 3
  ∧ Z.of_nat (distinct_voters qc) = 3.
Proof.
  intros s qc.
  assert ((try_form_qc s (proposal vote_C_X) 3).1 = Some qc) as Hqc.
  { vm_compute. reflexivity. }
  destruct (qc_voters_count s (proposal vote_C_X) 3 qc) as (_ & _ & Hlen & Hdist);
    [lia|exact Hqc|].
  split; [exact Hqc|]. split; [exact Hlen|]. apply Hdist. by_evaluation.
Defined.

(** ** Commit *)

Lemma in_committed_spec b l : in_committed b l = true ↔ b ∈ l.
Proof.
  unfold in_committed. rewrite existsb_exists. split.
  - intros (x & Hin & ->%String.eqb_eq). by apply list_elem_of_In.
  - intros Hin. exists b. split; [by apply list_elem_of_In|apply String.eqb_refl].
Qed.

Lemma in_committed_after_commit s qc :
  in_committed (block_id (qc_proposal qc)) (committed (apply_qc_commit s qc)) = true.
Proof.
  unfold apply_qc_commit.
  destruct (in_committed (block_id (qc_proposal qc)) (committed s)) eqn:Hin;
    [done|]. simpl.
  apply in_committed_spec, elem_of_app. right. by left.
Qed.

Lemma apply_qc_commit_twice s qc :
  apply_qc_commit (apply_qc_commit s qc) qc = apply_qc_commit s qc.
Proof.
  unfold apply_qc_commit at 1. by rewrite in_committed_after_commit.
Qed.

Lemma perform_committed_NoDup s c :
  NoDup (committed s) → NoDup (committed (perform s c)).
Proof.
  intros Hnd. destruct c as [vote|p Q|qc]; unfold perform.
  - done.
  - by destruct (try_form_qc_frame s p Q) as (_ & _ & _ & ->).
  - unfold apply_qc_commit.
    destruct (in_committed (block_id (qc_proposal qc)) (committed s)) eqn:Hin;
      [done|]. simpl.
    apply NoDup_app. split_and!; [done| |apply NoDup_singleton].
    intros b Hb ->%list_elem_of_singleton.
    apply in_committed_spec in Hb. congruence.
Qed.

(** C6. Commit is idempotent: applying a QC a second time changes nothing
    (neither the committed list nor any other field of the node), and at a
    node that started empty every block id is at most once in the
    committed list, after any sequence of calls. *)
Theorem commit_idempotent :
  (∀ s qc, committed (apply_qc_commit (apply_qc_commit s qc) qc)
           = committed (apply_qc_commit s qc))
  ∧ (∀ nid cs, NoDup (committed (perform_all (NodeState_init nid) cs))).
Proof.
  split.
  - intros s qc. by rewrite apply_qc_commit_twice.
  - intros nid cs. induction cs as [|c cs IH] using rev_ind.
    + apply NoDup_nil_2.
    + unfold perform_all in *. rewrite foldl_app. simpl.
      by apply perform_committed_NoDup.
Qed.

(** ** The highest QC *)

Lemma try_form_qc_highest s p Q h :
  highest_qc s = Some h →
  highest_qc (try_form_qc s p Q).2 =
  if (Q <=? Z.of_nat (length (votes_for (received_votes s) (proposal_id p))))
     && (view (qc_proposal h) <? view p)
  then (try_form_qc s p Q).1 else Some h.
Proof.
  intros Hh. unfold try_form_qc.
  destruct (Q <=? _); simpl; [|done]. rewrite Hh. by destruct (_ <? _).
Qed.

Lemma perform_highest s c h :
  highest_qc s = Some h →
  ∃ h', highest_qc (perform s c) = Some h'
        ∧ (h' = h ∨ view (qc_proposal h) < view (qc_proposal h')).
Proof.
  intros Hh. destruct c as [vote|p Q|qc]; unfold perform.
  - exists h. by split; [|left].
  - rewrite (try_form_qc_highest _ _ _ h) by done.
    destruct (Q <=? _) eqn:HQ; simpl; [|by exists h; split; [|left]].
    destruct (Z.ltb_spec (view (qc_proposal h)) (view p)); [|by exists h; split; [|left]].
    unfold try_form_qc. rewrite HQ. simpl. eexists. split; [done|]. by right.
  - destruct (apply_qc_commit_frame s qc) as (_ & _ & _ & ->).
    exists h. by split; [|left].
Qed.

(** C7. Once a node has a highest QC [h], it is only ever replaced by a QC
    of a strictly greater view: a [try_form_qc] for a proposal whose view
    is at most that of [h] leaves it as it is, one for a greater view
    stores a QC of that greater view or leaves [h], and after any sequence
    of calls the node holds [h] or a QC of a strictly greater view. *)
Theorem highest_qc_monotone (s : NodeState) (h : QC) :
  highest_qc s = Some h →
  (∀ p Q, view p ≤ view (qc_proposal h) →
          highest_qc (try_form_qc s p Q).2 = Some h)
  ∧ (∀ p Q, highest_qc (try_form_qc s p Q).2 = Some h
            ∨ ∃ h', highest_qc (try_form_qc s p Q).2 = Some h'
                    ∧ qc_proposal h' = p
                    ∧ view (qc_proposal h) < view p)
  ∧ (∀ cs, ∃ h', highest_qc (perform_all s cs) = Some h'
                 ∧ (h' = h ∨ view (qc_proposal h) < view (qc_proposal h'))).
Proof.
  intros Hh. split_and!.
  - intros p Q Hle. rewrite (try_form_qc_highest _ _ _ h) by done.
    rewrite (proj2 (Z.ltb_ge _ _)) by done. by rewrite andb_false_r.
  - intros p Q. rewrite (try_form_qc_highest _ _ _ h) by done.
    destruct (Q <=? _) eqn:HQ; simpl; [|by left].
    destruct (Z.ltb_spec (view (qc_proposal h)) (view p)); [|by left].
    right. unfold try_form_qc. rewrite HQ. simpl. eexists. by split_and!.
  - intros cs. revert s h Hh. induction cs as [|c cs IH]; intros s h Hh; simpl.
    + exists h. by split; [|left].
    + destruct (perform_highest s c h Hh) as (h1 & Hh1 & Hstep).
      destruct (IH _ _ Hh1) as (h2 & Hh2 & Hrest). exists h2. split; [done|].
      destruct Hstep as [->|?], Hrest as [->|?]; auto. right. lia.
Qed.

Lemma highest_qc_monotone_witness :
  let s := (try_form_qc (record_vote (NodeState_init "B") vote_C_Z)
                        (proposal vote_C_Z) 1).2 in
  let h := mkQC (proposal vote_C_Z) ["C"] in
  highest_qc (try_form_qc (record_vote s vote_C_X) (proposal vote_C_X) 1).2 = Some h.
Proof.
  intros s h.
  apply (proj1 (highest_qc_monotone (record_vote s vote_C_X) h
                  ltac:(vm_compute; reflexivity))).
  simpl. lia.
Defined.

(** ** Frame and growth *)

Lemma votes_grow_refl m : votes_grow m m.
Proof. intros k l Hl. exists []. by rewrite app_nil_r. Qed.

Lemma votes_grow_trans m1 m2 m3 :
  votes_grow m1 m2 → votes_grow m2 m3 → votes_grow m1 m3.
Proof.
  intros H12 H23 k l Hl.
  destruct (H12 _ _ Hl) as [l1 Hl1]. destruct (H23 _ _ Hl1) as [l2 Hl2].
  exists (l1 ++ l2). by rewrite app_assoc.
Qed.

Lemma record_vote_votes_grow s vote :
  votes_grow (received_votes s) (received_votes (record_vote s vote)).
Proof.
  intros k l Hl. simpl.
  destruct (decide (k = proposal_id (proposal vote))) as [->|Hk].
  - exists [vote]. rewrite lookup_insert_eq. unfold votes_for. by rewrite Hl.
  - exists []. by rewrite lookup_insert_ne, app_nil_r.
Qed.

Lemma apply_qc_commit_prefix s qc :
  committed s `prefix_of` committed (apply_qc_commit s qc).
Proof.
  unfold apply_qc_commit. case_match; [done|]. simpl. by apply prefix_app_r.
Qed.

Lemma perform_grows s c :
  votes_grow (received_votes s) (received_votes (perform s c))
  ∧ committed s `prefix_of` committed (perform s c).
Proof.
  destruct c as [vote|p Q|qc]; unfold perform.
  - split; [apply record_vote_votes_grow|done].
  - destruct (try_form_qc_frame s p Q) as (_ & -> & _ & ->).
    split; [apply votes_grow_refl|done].
  - destruct (apply_qc_commit_frame s qc) as (_ & -> & _).
    split; [apply votes_grow_refl|apply apply_qc_commit_prefix].
Qed.

(** C10. Frame and growth: [record_vote] leaves [committed] and
    [highest_qc] alone and only adds to the vote lists and to the
    evidence; [try_form_qc] leaves everything but [highest_qc] alone;
    [apply_qc_commit] leaves everything but [committed] alone and at most
    appends to it; so over any sequence of calls every vote list and the
    committed list are extended at the end only, and the evidence only
    gains entries. *)
Theorem frame_and_growth :
  (∀ s vote, let s' := record_vote s vote in
     node_id s' = node_id s ∧ committed s' = committed s
     ∧ highest_qc s' = highest_qc s
     ∧ votes_grow (received_votes s) (received_votes s')
     ∧ evidence s ⊆ evidence s')
  ∧ (∀ s p Q, let s' := (try_form_qc s p Q).2 in
       node_id s' = node_id s ∧ received_votes s' = received_votes s
       ∧ evidence s' = evidence s ∧ committed s' = committed s)
  ∧ (∀ s qc, let s' := apply_qc_commit s qc in
       node_id s' = node_id s ∧ received_votes s' = received_votes s
       ∧ evidence s' = evidence s ∧ highest_qc s' = highest_qc s
       ∧ committed s `prefix_of` committed s')
  ∧ (∀ s cs, let s' := perform_all s cs in
       node_id s' = node_id s
       ∧ votes_grow (received_votes s) (received_votes s')
       ∧ evidence s ⊆ evidence s'
       ∧ committed s `prefix_of` committed s').
Proof.
  split_and!.
  - intros s vote s'. split_and!; [done..|apply record_vote_votes_grow|].
    apply (perform_evidence_subseteq s (CallRecordVote vote)).
  - intros s p Q. apply try_form_qc_frame.
  - intros s qc s'. destruct (apply_qc_commit_frame s qc) as (? & ? & ? & ?).
    split_and!; [done..|]. apply apply_qc_commit_prefix.
  - intros s cs. revert s. induction cs as [|c cs IH]; intros s; simpl.
    + split_and!; [done|apply votes_grow_refl|done|done].
    + destruct (IH (perform s c)) as (Hid & Hv & He & Hc).
      destruct (perform_grows s c) as [Hv1 Hc1].
      split_and!.
      * rewrite Hid. destruct c as [vote|p Q|qc]; unfold perform; [done|..].
        -- by destruct (try_form_qc_frame s p Q) as (-> & _).
        -- by destruct (apply_qc_commit_frame s qc) as (-> & _).
      * by eapply votes_grow_trans.
      * etrans; [apply perform_evidence_subseteq|done].
      * by etrans.
Qed.

(** ** The scenario driver *)

Lemma for_each_node_nodes body w :
  nodes (for_each_node body w).2 = (λ nd, (body nd).1.2) <$> nodes w.
Proof. unfold for_each_node. simpl. by rewrite <-list_fmap_compose. Qed.

Lemma for_each_node_qcs body w :
  (for_each_node body w).1 = concat ((λ nd, (body nd).1.1) <$> nodes w).
Proof. unfold for_each_node. simpl. by rewrite <-list_fmap_compose. Qed.

(** The ids of the nodes are pairwise different, so the dictionary
    [nodes] has one entry per element of [NODE_IDS], in that order. *)
Lemma gen_node_ids_NoDup n : NoDup (gen_node_ids n).
Proof.
  unfold gen_node_ids. apply NoDup_fmap_2_strong; [|apply NoDup_seq].
  intros i j _ _.
  destruct (Nat.ltb_spec i 26), (Nat.ltb_spec j 26); intros Heq.
  - injection Heq as Heq.
    apply (f_equal Ascii.nat_of_ascii) in Heq.
    rewrite !Ascii.nat_ascii_embedding in Heq by lia. lia.
  - discriminate Heq.
  - discriminate Heq.
  - apply (inj (String.app "Node")) in Heq. by apply (inj pretty) in Heq.
Qed.

(** Delivering votes to a node appends each to the list of its own
    proposal id. *)
Lemma votes_for_deliver votes nd k :
  votes_for (received_votes (foldl record_vote nd votes)) k =
  votes_for (received_votes nd) k
    ++ filter (λ vote, proposal_id (proposal vote) = k) votes.
Proof.
  revert nd. induction votes as [|vote votes IH]; intros nd; simpl.
  - by rewrite app_nil_r.
  - rewrite IH, votes_for_record_vote, filter_cons.
    destruct (decide (k = proposal_id (proposal vote))) as [->|Hk].
    + rewrite decide_True by done. by rewrite <-app_assoc.
    + by rewrite decide_False by done.
Qed.

Lemma node_id_deliver votes nd : node_id (foldl record_vote nd votes) = node_id nd.
Proof. revert nd. induction votes as [|vote votes IH]; intros nd; simpl; [done|]. by rewrite IH. Qed.

Section DriverFacts.

Variable sha256_hexdigest : string → string.

Local Abbreviation signed_vote := (signed_vote sha256_hexdigest).
Local Abbreviation voting := (voting sha256_hexdigest).
Local Abbreviation attack_round := (attack_round sha256_hexdigest).

Lemma nodes_voting p targets w :
  nodes (voting p targets w) =
  (λ nd, foldl record_vote nd (signed_vote p <$> targets)) <$> nodes w.
Proof.
  revert w. induction targets as [|v targets IH]; intros w; simpl.
  - by rewrite list_fmap_id.
  - unfold voting in *. rewrite IH. unfold cast_vote. simpl.
    by rewrite <-!list_fmap_compose.
Qed.

Lemma filter_signed_votes p targets k :
  filter (λ vote, proposal_id (proposal vote) = k) (signed_vote p <$> targets) =
  if decide (proposal_id p = k) then signed_vote p <$> targets else [].
Proof.
  induction targets as [|v targets IH]; [by case_decide|].
  rewrite fmap_cons, filter_cons, IH. simpl. by case_decide.
Qed.

(** After the two voting loops of the attack round, a node that started
    empty holds one vote per target under the id of each proposal. *)
Lemma length_votes_after_attack nid view leader targetsA targetsB :
  let propA := mkProposal "X" "GENESIS" view leader in
  let propB := mkProposal "Y" "GENESIS" view leader in
  let nd := foldl record_vote
              (foldl record_vote (NodeState_init nid) (signed_vote propA <$> targetsA))
              (signed_vote propB <$> targetsB) in
  length (votes_for (received_votes nd) (proposal_id propA)) = length targetsA
  ∧ length (votes_for (received_votes nd) (proposal_id propB)) = length targetsB.
Proof.
  intros propA propB nd. unfold nd.
  assert (proposal_id propA ≠ proposal_id propB) as Hne.
  { by apply proposal_id_block_ne. }
  assert (∀ k, votes_for (received_votes (NodeState_init nid)) k = []) as Hempty.
  { intros k. unfold votes_for. simpl. by rewrite lookup_empty. }
  rewrite !votes_for_deliver, !filter_signed_votes, !Hempty.
  repeat case_decide; try done; try congruence.
  by rewrite ?app_nil_l, ?app_nil_r, !length_fmap.
Qed.

(** A node short of votes for every polled proposal returns no QC and
    is left as it is. *)
Lemma body_try_form_qc_short ps Q nd :
  Forall (λ p, Z.of_nat (length (votes_for (received_votes nd) (proposal_id p))) < Q) ps →
  (body_try_form_qc ps Q nd).1 = ([], nd).
Proof.
  unfold body_try_form_qc.
  cut (∀ cs, Forall (λ p, Z.of_nat (length (votes_for (received_votes nd)
                                               (proposal_id p))) < Q) ps →
         (foldl (λ acc p, let '(qcs, nd, cs) := acc in
                          let '(qc, nd') := try_form_qc nd p Q in
                          (qcs ++ option_list qc, nd', cs ++ [CallTryFormQC p Q]))
                ([], nd, cs) ps).1 = ([], nd)).
  { intros Hcut. apply Hcut. }
  induction ps as [|p ps IH]; intros cs Hshort; simpl; [done|].
  apply Forall_cons in Hshort as [Hp Hps].
  rewrite try_form_qc_None by done. simpl. by apply IH.
Qed.

Lemma for_each_node_short ps Q w :
  Forall (λ nd, Forall (λ p, Z.of_nat (length (votes_for (received_votes nd)
                                                  (proposal_id p))) < Q) ps)
         (nodes w) →
  (for_each_node (body_try_form_qc ps Q) w).1 = []
  ∧ nodes (for_each_node (body_try_form_qc ps Q) w).2 = nodes w.
Proof.
  intros Hshort. rewrite for_each_node_qcs, for_each_node_nodes.
  induction Hshort as [|nd nds Hnd _ [IHq IHn]]; simpl; [done|].
  rewrite (body_try_form_qc_short ps Q nd Hnd). simpl.
  split; [done|]. by f_equal.
Qed.

(** C1. Quorum safety of the attack round: for any set of validators,
    any fault bound [f] with [Q = 2f+1], and any two groups of targets
    each smaller than [Q], once each target has cast its one vote for
    the proposal it was shown and every vote has reached every node, no
    call of [try_form_qc] returns a QC (the list [qcs] of the driver is
    empty), and at every node [try_form_qc] returns [None] for X and
    for Y. *)
Theorem split_vote_forms_no_qc (ids targetsA targetsB : list string)
    (view : Z) (leader : string) (f : nat) :
  let Q := 2 * Z.of_nat f + 1 in
  Z.of_nat (length targetsA) < Q →
  Z.of_nat (length targetsB) < Q →
  ∃ w,
    let propA := mkProposal "X" "GENESIS" view leader in
    let propB := mkProposal "Y" "GENESIS" view leader in
    attack_round view leader targetsA targetsB Q
      (mkWorld (NodeState_init <$> ids) [] [] []) = (propA, propB, [], w)
    ∧ node_id <$> nodes w = ids
    ∧ Forall (λ nd, (try_form_qc nd propA Q).1 = None
                    ∧ (try_form_qc nd propB Q).1 = None) (nodes w).
Proof.
  intros Q HA HB. unfold attack_round, new_proposal. cbv beta zeta iota.
  set (propA := mkProposal "X" "GENESIS" view leader).
  set (propB := mkProposal "Y" "GENESIS" view leader).
  set (w1 := voting propB targetsB (voting propA targetsA _)).
  assert (nodes w1 =
          (λ nid, foldl record_vote
                    (foldl record_vote (NodeState_init nid)
                           (signed_vote propA <$> targetsA))
                    (signed_vote propB <$> targetsB)) <$> ids) as Hnodes.
  { unfold w1. rewrite !nodes_voting. simpl. by rewrite <-!list_fmap_compose. }
  assert (Forall (λ nd, Forall (λ p, Z.of_nat (length (votes_for (received_votes nd)
                                                          (proposal_id p))) < Q)
                               [propA; propB]) (nodes w1)) as Hshort.
  { rewrite Hnodes. apply Forall_fmap, Forall_true. intros nid. simpl.
    destruct (length_votes_after_attack nid view leader targetsA targetsB)
      as [HlenA HlenB].
    repeat apply Forall_cons_2; [| |apply Forall_nil_2].
    - fold propA propB in HlenA. rewrite HlenA. lia.
    - fold propA propB in HlenB. rewrite HlenB. lia. }
  destruct (for_each_node_short [propA; propB] Q w1 Hshort) as [Hq Hn].
  destruct (for_each_node (body_try_form_qc [propA; propB] Q) w1) as [qcs w2].
  simpl in Hq, Hn. subst qcs. exists w2. split; [done|]. rewrite Hn. split.
  - rewrite Hnodes, <-list_fmap_compose. rewrite <-(list_fmap_id ids) at 2.
    apply list_fmap_ext. intros _ nid _. simpl.
    by rewrite !node_id_deliver.
  - eapply Forall_impl; [exact Hshort|]. intros nd Hnd. simpl.
    apply Forall_cons in Hnd as [HpA Hnd]. apply Forall_cons in Hnd as [HpB _].
    by rewrite !try_form_qc_None.
Qed.

End DriverFacts.

Lemma split_vote_forms_no_qc_witness :
  ∃ w,
    attack_round (λ _, "9f86d081884c7d65") 1 "A" ["A"; "B"; "C"] ["D"; "E"; "F"; "G"] 5
      (mkWorld (NodeState_init <$> gen_node_ids 7) [] [] [])
    = (mkProposal "X" "GENESIS" 1 "A", mkProposal "Y" "GENESIS" 1 "A", [], w)
    ∧ node_id <$> nodes w = gen_node_ids 7
    ∧ Forall (λ nd, (try_form_qc nd (mkProposal "X" "GENESIS" 1 "A") 5).1 = None
                    ∧ (try_form_qc nd (mkProposal "Y" "GENESIS" 1 "A") 5).1 = None)
             (nodes w).
Proof.
  apply (split_vote_forms_no_qc (λ _, "9f86d081884c7d65") (gen_node_ids 7)
           ["A"; "B"; "C"] ["D"; "E"; "F"; "G"] 1 "A" 2); simpl; lia.
Defined.

Lemma run_summary_7_2 sha faulty_leader :
  let qcZ := mkQC (mkProposal "Z" "GENESIS" 2 "B") ["A"; "B"; "C"; "D"; "E"] in
  run_summary (run_simulation sha 7 2 faulty_leader "Equivocation (split proposals)")
  = Some ([], [], replicate 7 qcZ,
          (λ nid, (nid, ["Z"], [], Some qcZ)) <$> ["A"; "B"; "C"; "D"; "E"; "F"; "G"]).
Proof.
  unfold run_simulation.
  destruct (String.eqb faulty_leader "None"); vm_compute; reflexivity.
Qed.

(** C8. The equivocation scenario with N = 7, f = 2 (Q = 5), whoever the
    chosen leader is: the run ends normally; no QC forms for X or Y; no
    node holds any evidence and none is collected; every one of the seven
    nodes forms a QC for Z (with the five voters A to E) and keeps it as
    its highest QC; and the committed list of every node is exactly [Z]. *)
Theorem equivocation_scenario_N7_f2 (sha : string → string) (faulty_leader : string) :
  ∃ d w,
    run_simulation sha 7 2 faulty_leader "Equivocation (split proposals)"
    = Some (Some d, w)
    ∧ demo_qcs d = []
    ∧ demo_evidence d = ∅
    ∧ demo_qcs_z d
      = replicate 7 (mkQC (mkProposal "Z" "GENESIS" 2 "B") ["A"; "B"; "C"; "D"; "E"])
    ∧ node_id <$> nodes w = ["A"; "B"; "C"; "D"; "E"; "F"; "G"]
    ∧ Forall (λ nd, committed nd = ["Z"]
                    ∧ evidence nd = ∅
                    ∧ highest_qc nd
                      = Some (mkQC (mkProposal "Z" "GENESIS" 2 "B")
                                   ["A"; "B"; "C"; "D"; "E"]))
             (nodes w).
Proof.
  pose proof (run_summary_7_2 sha faulty_leader) as Hsum.
  destruct (run_simulation sha 7 2 faulty_leader "Equivocation (split proposals)")
    as [[[d|] w]|]; simpl in Hsum; [|done..].
  injection Hsum as Hqcs Hev Hqcsz Hnodes.
  exists d, w. split_and!; [done|done| |done| |].
  - apply leibniz_equiv. by apply elements_empty_inv.
  - apply (f_equal (fmap (λ x, x.1.1.1))) in Hnodes.
    by rewrite <-list_fmap_compose in Hnodes.
  - apply Forall_forall. intros nd Hnd.
    apply (list_elem_of_fmap_2
             (λ nd, (node_id nd, committed nd, elements (evidence nd), highest_qc nd)))
      in Hnd.
    rewrite Hnodes in Hnd.
    assert (committed nd = ["Z"] ∧ elements (evidence nd) = []
            ∧ highest_qc nd
              = Some (mkQC (mkProposal "Z" "GENESIS" 2 "B") ["A"; "B"; "C"; "D"; "E"]))
      as (Hc & He & Hh).
    { repeat (apply elem_of_cons in Hnd as [Hnd|Hnd]; [by injection Hnd|]).
      by apply elem_of_nil in Hnd. }
    split_and!; [done| |done].
    apply leibniz_equiv. by apply elements_empty_inv.
Qed.

(** C9. The attack types without a round of their own do nothing: for
    "Withhold QC" and for "Drop messages (selective silence)", with at
    least one validator, the run logs the leader, one notice that the
    scenario is not implemented (a placeholder) and the end of the
    simulation; it runs no demo, constructs no proposal and calls no
    method of any node, so every node is as created: nothing committed, no
    evidence. *)
Theorem unimplemented_attacks_do_nothing (sha : string → string) (N F : nat)
    (faulty_leader attack_type : string) :
  (0 < N)%nat →
  attack_type = "Withhold QC" ∨ attack_type = "Drop messages (selective silence)" →
  ∃ leader notice,
    run_simulation sha N F faulty_leader attack_type
    = Some (None,
            mkWorld (NodeState_init <$> gen_node_ids N)
                    [(LeaderIs 1 leader, "info"); (Text notice, "info");
                     (Text "Simulation complete.", "info")]
                    [] [])
    ∧ (notice = "Withhold QC scenario not fully implemented in UI version yet. Please try Equivocation demo."
       ∨ notice = "Other attack types are placeholders. Equivocation demo is the interactive part.")
    ∧ Forall (λ nd, committed nd = [] ∧ evidence nd = ∅ ∧ received_votes nd = ∅
                    ∧ highest_qc nd = None)
             (NodeState_init <$> gen_node_ids N).
Proof.
  intros HN Hattack.
  assert (∃ leader,
            (if negb (String.eqb faulty_leader "None") then Some faulty_leader
             else index_mod (gen_node_ids N) 0) = Some leader) as [leader Hleader].
  { destruct (negb _); [by eexists|].
    destruct N as [|n]; [lia|]. exists "A".
    unfold gen_node_ids. cbn [seq]. rewrite fmap_cons.
    unfold index_mod. by rewrite Nat.Div0.mod_0_l. }
  assert (Forall (λ nd, committed nd = [] ∧ evidence nd = ∅ ∧ received_votes nd = ∅
                        ∧ highest_qc nd = None)
                 (NodeState_init <$> gen_node_ids N)) as Hfresh.
  { apply Forall_fmap, Forall_true. by intros nid. }
  unfold run_simulation. rewrite Hleader.
  destruct Hattack as [-> | ->]; exists leader; eexists; (split; [reflexivity|]);
    split; auto.
Qed.

Lemma unimplemented_attacks_do_nothing_witness :
  ∃ leader notice,
    run_simulation (λ _, "9f86d081884c7d65") 7 2 "A" "Withhold QC"
    = Some (None,
            mkWorld (NodeState_init <$> gen_node_ids 7)
                    [(LeaderIs 1 leader, "info"); (Text notice, "info");
                     (Text "Simulation complete.", "info")]
                    [] [])
    ∧ (notice = "Withhold QC scenario not fully implemented in UI version yet. Please try Equivocation demo."
       ∨ notice = "Other attack types are placeholders. Equivocation demo is the interactive part.")
    ∧ Forall (λ nd, committed nd = [] ∧ evidence nd = ∅ ∧ received_votes nd = ∅
                    ∧ highest_qc nd = None)
             (NodeState_init <$> gen_node_ids 7).
Proof.
  apply (unimplemented_attacks_do_nothing (λ _, "9f86d081884c7d65") 7 2 "A"
           "Withhold QC"); [lia|by left].
Defined.

(** * Further properties of the program *)

(** ** The identity of a proposal *)

Lemma first_occurrence_split {A} (x : A) (a b c d : list A) :
  x ∉ a → x ∉ b → a ++ x :: c = b ++ x :: d → a = b ∧ c = d.
Proof.
  revert b. induction a as [|y a IH]; intros [|z b] Ha Hb Heq; simpl in Heq.
  - by injection Heq.
  - injection Heq as <- _. exfalso. apply Hb. left.
  - injection Heq as -> _. exfalso. apply Ha. left.
  - injection Heq as <- Heq.
    apply not_elem_of_cons in Ha as [_ Ha]. apply not_elem_of_cons in Hb as [_ Hb].
    destruct (IH b Ha Hb Heq) as [-> ->]. done.
Qed.

Lemma last_occurrence_split {A} (x : A) (a b c d : list A) :
  x ∉ c → x ∉ d → a ++ x :: c = b ++ x :: d → a = b ∧ c = d.
Proof.
  intros Hc Hd Heq. apply (f_equal reverse) in Heq.
  rewrite !reverse_app, !reverse_cons, <-!app_assoc in Heq. simpl in Heq.
  apply first_occurrence_split in Heq as [Hcd Hab].
  - split; [by apply (inj reverse)|by apply (inj reverse)].
  - by rewrite elem_of_reverse.
  - by rewrite elem_of_reverse.
Qed.

Lemma no_v_pretty_N_go x s : no_v s → no_v (pretty_N_go x s).
Proof.
  revert s. induction (N.lt_wf_0 x) as [x _ IH]; intros s Hs.
  destruct (decide (x = 0)%N) as [->|Hx]; [by rewrite pretty_N_go_0|].
  rewrite pretty_N_go_step by lia. apply IH.
  - apply N.div_lt; lia.
  - unfold no_v in *. simpl. apply not_elem_of_cons. split; [|done].
    unfold pretty_N_char. by repeat case_match.
Qed.

Lemma no_v_pretty_Z (z : Z) : no_v (pretty z).
Proof.
  assert (no_v "") as Hnil by (unfold no_v; simpl; apply not_elem_of_nil).
  assert (∀ p : positive, no_v (pretty p)) as Hpos.
  { intros p. unfold pretty, pretty_positive, pretty, pretty_N.
    case_decide; [done|]. by apply no_v_pretty_N_go. }
  destruct z as [|p|p]; unfold pretty, pretty_Z.
  - unfold no_v. simpl. by apply not_elem_of_cons.
  - apply Hpos.
  - unfold no_v. cbn. apply not_elem_of_cons. split; [done|]. apply Hpos.
Qed.

Lemma string_of_list_inj s1 s2 :
  String.list_ascii_of_string s1 = String.list_ascii_of_string s2 → s1 = s2.
Proof.
  intros Heq. rewrite <-(String.string_of_list_ascii_of_string s1), Heq.
  apply String.string_of_list_ascii_of_string.
Qed.

Lemma proposal_id_inj p q :
  proposal_id p = proposal_id q → block_id p = block_id q ∧ view p = view q.
Proof.
  unfold proposal_id. intros Heq.
  apply (f_equal String.list_ascii_of_string) in Heq.
  rewrite !list_ascii_of_string_app in Heq. simpl in Heq.
  change (?l ++ "@"%char :: "v"%char :: ?r) with (l ++ ["@"%char] ++ "v"%char :: r) in Heq.
  rewrite !app_assoc in Heq.
  apply last_occurrence_split in Heq as [Hb Hv];
    [|apply no_v_pretty_Z|apply no_v_pretty_Z].
  apply app_inv_tail in Hb. split.
  - by apply string_of_list_inj.
  - apply (inj pretty). by apply string_of_list_inj.
Qed.

(** X1. The id of a proposal identifies its block id and its view, and
    nothing else: two proposals have the same id exactly when they have
    the same block id and the same view (the parent and the proposer play
    no part). *)
Theorem proposal_id_identity (p q : Proposal) :
  proposal_id p = proposal_id q ↔ block_id p = block_id q ∧ view p = view q.
Proof.
  split; [apply proposal_id_inj|].
  intros [Hb Hv]. unfold proposal_id. by rewrite Hb, Hv.
Qed.

(** ** More on quorum certificates *)

Lemma try_form_qc_votes s p Q :
  received_votes (try_form_qc s p Q).2 = received_votes s.
Proof. by destruct (try_form_qc_frame s p Q) as (_ & -> & _). Qed.

Lemma try_form_qc_fst s p Q :
  (try_form_qc s p Q).1 =
  if Q <=? Z.of_nat (length (votes_for (received_votes s) (proposal_id p)))
  then Some (mkQC p (sorted_strs
                       (voter <$> slice_to (votes_for (received_votes s) (proposal_id p)) Q)))
  else None.
Proof. unfold try_form_qc. by destruct (Q <=? _). Qed.

Lemma try_form_qc_twice s p Q :
  try_form_qc (try_form_qc s p Q).2 p Q = try_form_qc s p Q.
Proof.
  unfold try_form_qc at 2 3.
  destruct (Q <=? Z.of_nat (length (votes_for (received_votes s) (proposal_id p))))
    eqn:HQ; simpl.
  - unfold try_form_qc. simpl. rewrite HQ. f_equal.
    destruct (highest_qc s) as [h|]; simpl.
    + destruct (Z.ltb_spec (view (qc_proposal h)) (view p)) as [Hlt|Hge]; simpl.
      * by rewrite Z.ltb_irrefl.
      * by rewrite (proj2 (Z.ltb_ge _ _)).
    + by rewrite Z.ltb_irrefl.
  - unfold try_form_qc. by rewrite HQ.
Qed.

(** X2. Asking again changes nothing: a second [try_form_qc] for the same
    proposal and quorum, right after the first, returns what the first
    returned and leaves the node exactly as the first left it. *)
Theorem try_form_qc_again (s : NodeState) (p : Proposal) (Q : Z) :
  try_form_qc (try_form_qc s p Q).2 p Q = try_form_qc s p Q.
Proof. apply try_form_qc_twice. Qed.

Lemma slice_to_sublist {A} (l : list A) (k : Z) x : x ∈ slice_to l k → x ∈ l.
Proof.
  unfold slice_to. destruct (k <? 0); intros Hin;
    by eapply elem_of_prefix; [exact Hin|apply prefix_take].
Qed.

(** X3. A QC names only voters who voted: the voters of a QC returned by
    [try_form_qc] are in ascending order, and each of them is the voter of
    a vote stored at the node under the id of the proposal. *)
Theorem qc_voters_voted (s : NodeState) (p : Proposal) (Q : Z) (qc : QC) :
  (try_form_qc s p Q).1 = Some qc →
  Sorted String.le (qc_voters qc)
  ∧ ∀ a, a ∈ qc_voters qc →
         ∃ vote, vote ∈ votes_for (received_votes s) (proposal_id p)
                 ∧ voter vote = a.
Proof.
  intros [_ ->]%try_form_qc_Some. simpl. split.
  - apply Sorted_merge_sort. apply _.
  - intros a Ha. unfold sorted_strs in Ha. rewrite merge_sort_Permutation in Ha.
    apply list_elem_of_fmap in Ha as (vote & -> & Hin).
    exists vote. split; [|done]. by eapply slice_to_sublist.
Qed.

Lemma qc_voters_voted_witness :
  let s := perform_all (NodeState_init "B")
             [CallRecordVote vote_D_X; CallRecordVote vote_C_X] in
  let qc := mkQC (proposal vote_C_X) ["C"; "D"] in
  Sorted String.le (qc_voters qc)
  ∧ ∀ a, a ∈ qc_voters qc →
         ∃ vote, vote ∈ votes_for (received_votes s) (proposal_id (proposal vote_C_X))
                 ∧ voter vote = a.
Proof.
  intros s qc.
  apply (qc_voters_voted s (proposal vote_C_X) 2 qc). vm_compute. reflexivity.
Defined.

(** X4. A quorum, once reached, stays: if [try_form_qc] returns a QC for a
    quorum [Q ≥ 0], then after any further calls on the node it returns
    the same QC (later votes for the proposal come after the first [Q]). *)
Theorem qc_stable (s : NodeState) (cs : list Call) (p : Proposal) (Q : Z) (qc : QC) :
  0 ≤ Q →
  (try_form_qc s p Q).1 = Some qc →
  (try_form_qc (perform_all s cs) p Q).1 = Some qc.
Proof.
  intros HQ [Hlen ->]%try_form_qc_Some.
  destruct (perform_all_votes_prefix cs s (proposal_id p)) as [more Hmore].
  rewrite try_form_qc_fst, Hmore, length_app.
  rewrite (proj2 (Z.leb_le _ _)) by lia.
  rewrite !slice_to_nonneg by done. by rewrite take_app_le by lia.
Qed.

Lemma qc_stable_witness :
  let s := perform_all (NodeState_init "B")
             [CallRecordVote vote_D_X; CallRecordVote vote_C_X] in
  (try_form_qc (perform_all s [CallRecordVote vote_C_X; CallRecordVote vote_C_Y])
               (proposal vote_C_X) 2).1
  = Some (mkQC (proposal vote_C_X) ["C"; "D"]).
Proof.
  intros s.
  apply (qc_stable s [CallRecordVote vote_C_X; CallRecordVote vote_C_Y]
           (proposal vote_C_X) 2); [lia|]. vm_compute. reflexivity.
Defined.

(** X5. The highest QC dominates every QC the node has formed: if at some
    point of a sequence of calls [try_form_qc] returns a QC for [p], then
    from then on the node holds a highest QC, of a view at least that of
    [p]. *)
Theorem highest_qc_dominates (s : NodeState) (before after : list Call)
    (p : Proposal) (Q : Z) (qc : QC) :
  (try_form_qc (perform_all s before) p Q).1 = Some qc →
  ∃ h, highest_qc (perform_all s (before ++ CallTryFormQC p Q :: after)) = Some h
       ∧ view p ≤ view (qc_proposal h).
Proof.
  intros Hqc. unfold perform_all in *. rewrite foldl_app. simpl.
  set (s1 := foldl perform s before) in *.
  assert (∃ h1, highest_qc (try_form_qc s1 p Q).2 = Some h1
                ∧ view p ≤ view (qc_proposal h1)) as (h1 & Hh1 & Hle).
  { apply try_form_qc_Some in Hqc as [Hlen _].
    unfold try_form_qc. rewrite (proj2 (Z.leb_le _ _)) by done. simpl.
    destruct (highest_qc s1) as [h|].
    - destruct (Z.ltb_spec (view (qc_proposal h)) (view p));
        eexists; (split; [done|]); simpl; lia.
    - eexists. split; [done|]. simpl. lia. }
  revert Hh1. generalize (try_form_qc s1 p Q).2. clear Hqc s1.
  revert h1 Hle. induction after as [|c after IH]; intros h1 Hle s1 Hh1; simpl.
  - by exists h1.
  - destruct (perform_highest s1 c h1 Hh1) as (h2 & Hh2 & Hstep).
    apply (IH h2); [|done]. destruct Hstep as [->|?]; lia.
Qed.

Lemma highest_qc_dominates_witness :
  ∃ h, highest_qc (perform_all (NodeState_init "B")
                     ([CallRecordVote vote_C_Z]
                        ++ CallTryFormQC (proposal vote_C_Z) 1
                        :: [CallRecordVote vote_C_X;
                            CallTryFormQC (proposal vote_C_X) 1])) = Some h
       ∧ view (proposal vote_C_Z) ≤ view (qc_proposal h).
Proof.
  apply (highest_qc_dominates (NodeState_init "B") [CallRecordVote vote_C_Z]
           [CallRecordVote vote_C_X; CallTryFormQC (proposal vote_C_X) 1]
           (proposal vote_C_Z) 1 (mkQC (proposal vote_C_Z) ["C"])).
  vm_compute. reflexivity.
Defined.

(** ** The vote store *)

Lemma lookup_record_vote s vote k :
  received_votes (record_vote s vote) !! k =
  if decide (k = proposal_id (proposal vote))
  then Some (votes_for (received_votes s) k ++ [vote])
  else received_votes s !! k.
Proof.
  simpl. case_decide as Hk.
  - subst k. by rewrite lookup_insert_eq.
  - by rewrite lookup_insert_ne.
Qed.

Lemma lookup_perform_all cs s k :
  received_votes (perform_all s cs) !! k =
  match filter (λ vote, proposal_id (proposal vote) = k) (ingested cs) with
  | [] => received_votes s !! k
  | l => Some (votes_for (received_votes s) k ++ l)
  end.
Proof.
  revert s. induction cs as [|c cs IH]; intros s; [done|].
  change (perform_all s (c :: cs)) with (perform_all (perform s c) cs).
  rewrite IH. destruct c as [vote|p Q|qc].
  - change (ingested (CallRecordVote vote :: cs)) with (vote :: ingested cs).
    rewrite filter_cons. unfold perform.
    rewrite lookup_record_vote, votes_for_record_vote.
    destruct (decide (proposal_id (proposal vote) = k)) as [<-|Hk].
    + rewrite !decide_True by done.
      destruct (filter _ (ingested cs)) as [|v l]; [done|].
      by rewrite <-app_assoc.
    + rewrite !decide_False by done. done.
  - change (ingested (CallTryFormQC p Q :: cs)) with (ingested cs).
    unfold perform. by rewrite try_form_qc_votes.
  - change (ingested (CallApplyQCCommit qc :: cs)) with (ingested cs).
    unfold perform. by destruct (apply_qc_commit_frame s qc) as (_ & -> & _).
Qed.

(** X6. The vote store groups the delivered votes by proposal id and
    loses none: at a node that started empty, after any sequence of calls,
    the list under a key is the sequence of all delivered votes whose
    proposal has that id, in order of delivery, duplicates included; a key
    no delivered vote has is absent (never bound to an empty list). *)
Theorem vote_store_groups_by_id (nid : string) (cs : list Call) (k : string) :
  received_votes (perform_all (NodeState_init nid) cs) !! k =
  match filter (λ vote, proposal_id (proposal vote) = k) (ingested cs) with
  | [] => None
  | l => Some l
  end.
Proof.
  rewrite lookup_perform_all. simpl. unfold votes_for. rewrite lookup_empty.
  done.
Qed.


(** ** The committed list *)

Lemma elem_of_committed_apply s qc b :
  b ∈ committed (apply_qc_commit s qc) ↔
  b ∈ committed s ∨ b = block_id (qc_proposal qc).
Proof.
  unfold apply_qc_commit.
  destruct (in_committed (block_id (qc_proposal qc)) (committed s)) eqn:Hin; simpl.
  - apply in_committed_spec in Hin. split; [by left|]. by intros [?| ->].
  - rewrite elem_of_app, list_elem_of_singleton. done.
Qed.

Lemma elem_of_committed_perform_all cs s b :
  b ∈ committed (perform_all s cs) ↔
  b ∈ committed s
  ∨ ∃ qc, CallApplyQCCommit qc ∈ cs ∧ block_id (qc_proposal qc) = b.
Proof.
  revert s. induction cs as [|c cs IH]; intros s.
  - simpl. split; [by left|]. intros [?|(qc & Hin & _)]; [done|].
    by apply elem_of_nil in Hin.
  - change (perform_all s (c :: cs)) with (perform_all (perform s c) cs).
    rewrite IH. destruct c as [vote|p Q|qc]; unfold perform.
    + simpl. split.
      * intros [?|(qc' & Hin & ?)]; [by left|right]. exists qc'. split; [by right|done].
      * intros [?|(qc' & Hin & ?)]; [by left|right].
        apply elem_of_cons in Hin as [[=]|Hin]. by exists qc'.
    + destruct (try_form_qc_frame s p Q) as (_ & _ & _ & ->). split.
      * intros [?|(qc' & Hin & ?)]; [by left|right]. exists qc'. split; [by right|done].
      * intros [?|(qc' & Hin & ?)]; [by left|right].
        apply elem_of_cons in Hin as [[=]|Hin]. by exists qc'.
    + rewrite elem_of_committed_apply. split.
      * intros [[?| ->]|(qc' & Hin & ?)]; [by left|right..].
        -- exists qc. split; [left|done].
        -- exists qc'. split; [by right|done].
      * intros [?|(qc' & Hin & <-)]; [by left; left|].
        apply elem_of_cons in Hin as [[= <-]|Hin]; [by left; right|].
        right. by exists qc'.
Qed.

(** X8. What is committed is what was applied: at a node that started
    empty, after any sequence of calls, a block id is in the committed
    list exactly when [apply_qc_commit] was called with a QC of a proposal
    of that block id.  Recording votes and forming QCs commit nothing, and
    [apply_qc_commit] asks nothing of the QC it is given. *)
Theorem committed_iff_applied (nid : string) (cs : list Call) (b : string) :
  b ∈ committed (perform_all (NodeState_init nid) cs) ↔
  ∃ qc, CallApplyQCCommit qc ∈ cs ∧ block_id (qc_proposal qc) = b.
Proof.
  rewrite elem_of_committed_perform_all. simpl. split; [|by right].
  intros [Hin|?]; [|done]. by apply elem_of_nil in Hin.
Qed.

(** ** The sidebar *)

(** X9. The sliders allow only quorums the validators can reach: for
    [N ≥ 4] (the least [N] of the slider) the starting value of [f] lies
    between 1 and [max_f], and every [f] from 0 to [max_f] gives
    [3f + 1 ≤ N], so a quorum [2f + 1] of at least 1 and at most [N].
    For [N] from 1 to 3 the starting value would lie above [max_f]. *)
Theorem sidebar_bounds (N : Z) :
  (4 ≤ N → 1 ≤ default_f N ≤ max_f N
           ∧ ∀ F, 0 ≤ F ≤ max_f N →
                  3 * F + 1 ≤ N ∧ 1 ≤ QUORUM_of F ≤ N)
  ∧ (1 ≤ N < 4 → max_f N < default_f N).
Proof.
  unfold default_f, max_f, QUORUM_of. split.
  - intros HN.
    assert (1 ≤ (N - 1) / 3) by (apply Z.div_le_lower_bound; lia).
    assert (3 * ((N - 1) / 3) ≤ N - 1) by (apply Z.mul_div_le; lia).
    split; [lia|]. intros F HF. lia.
  - intros HN. assert ((N - 1) / 3 = 0) as ->; [|lia].
    apply Z.div_small. lia.
Qed.

Lemma sidebar_bounds_witness :
  (1 ≤ default_f 7 ≤ max_f 7
   ∧ ∀ F, 0 ≤ F ≤ max_f 7 → 3 * F + 1 ≤ 7 ∧ 1 ≤ QUORUM_of F ≤ 7)
  ∧ max_f 3 < default_f 3.
Proof.
  split.
  - apply (proj1 (sidebar_bounds 7)). lia.
  - apply (proj2 (sidebar_bounds 3)). lia.
Defined.

(** ** The node ids *)

(** X10. [gen_node_ids n] gives [n] ids, no two of them equal, and none of
    them is the word ["None"] by which the leader select box says that no
    faulty leader is chosen. *)
Theorem gen_node_ids_distinct (n : nat) :
  length (gen_node_ids n) = n
  ∧ NoDup (gen_node_ids n)
  ∧ "None" ∉ gen_node_ids n.
Proof.
  split_and!.
  - unfold gen_node_ids. by rewrite length_fmap, length_seq.
  - apply gen_node_ids_NoDup.
  - unfold gen_node_ids. intros (i & Heq & _)%list_elem_of_fmap.
    destruct (i <? 26)%nat; discriminate Heq.
Qed.

(** ** The equivocation demo, for any number of validators *)

Lemma perform_all_app s cs1 cs2 :
  perform_all s (cs1 ++ cs2) = perform_all (perform_all s cs1) cs2.
Proof. unfold perform_all. apply foldl_app. Qed.

Lemma deliver_perform_all nd votes :
  foldl record_vote nd votes = perform_all nd (CallRecordVote <$> votes).
Proof. unfold perform_all. by rewrite foldl_fmap. Qed.

Lemma body_try_form_qc_one p Q nd :
  (body_try_form_qc [p] Q nd).1
  = (option_list (try_form_qc nd p Q).1, perform_all nd [CallTryFormQC p Q]).
Proof.
  unfold body_try_form_qc. simpl. by destruct (try_form_qc nd p Q).
Qed.

Lemma body_try_form_qc_two pA pB Q nd :
  (body_try_form_qc [pA; pB] Q nd).1
  = (option_list (try_form_qc nd pA Q).1
       ++ option_list (try_form_qc (try_form_qc nd pA Q).2 pB Q).1,
     perform_all nd [CallTryFormQC pA Q; CallTryFormQC pB Q]).
Proof.
  unfold body_try_form_qc. simpl.
  destruct (try_form_qc nd pA Q) as [qcA nd1]. simpl.
  by destruct (try_form_qc nd1 pB Q).
Qed.

Lemma log_lines_frame {A} (f : World → A → LogMsg) kind (l : list A) w :
  nodes (foldl (λ w x, log (f w x) kind w) w l) = nodes w
  ∧ proposals_made (foldl (λ w x, log (f w x) kind w) w l) = proposals_made w.
Proof. revert w. induction l as [|x l IH]; intros w; simpl; [done|]. by rewrite !(proj1 (IH _)), !(proj2 (IH _)). Qed.

Lemma for_each_node_proposals body w :
  proposals_made (for_each_node body w).2 = proposals_made w.
Proof. done. Qed.

Lemma try_form_qc_fst_votes s s' p Q :
  received_votes s = received_votes s' →
  (try_form_qc s p Q).1 = (try_form_qc s' p Q).1.
Proof. intros Hrv. by rewrite !try_form_qc_fst, Hrv. Qed.

Section DemoFacts.

Variable sha256_hexdigest : string → string.

Local Abbreviation signed_vote := (signed_vote sha256_hexdigest).
Local Abbreviation voting := (voting sha256_hexdigest).

Lemma proposals_voting p targets w :
  proposals_made (voting p targets w) = proposals_made w.
Proof.
  revert w. induction targets as [|v targets IH]; intros w; [done|].
  unfold voting in *. simpl. by rewrite IH.
Qed.

(** The branch, node by node: every node is taken through the same calls,
    and through [apply_qc_commit] of the first QC for Z when there is
    one. *)
Lemma equivocation_demo_shape ids Q view li leader nl w0 :
  index_mod ids (li + 1) = Some nl →
  let tA := take (length ids / 2) ids in
  let tB := drop (length ids / 2) ids in
  let propA := mkProposal "X" "GENESIS" view leader in
  let propB := mkProposal "Y" "GENESIS" view leader in
  let propZ := mkProposal "Z" "GENESIS" (view + 1) nl in
  let voted nd :=
    perform_all nd ((CallRecordVote <$> (signed_vote propA <$> tA))
                    ++ (CallRecordVote <$> (signed_vote propB <$> tB))) in
  let polled nd :=
    perform_all nd (demo_calls sha256_hexdigest view leader nl tA tB ids Q) in
  let qcs := concat ((λ nd, option_list (try_form_qc (voted nd) propA Q).1
                            ++ option_list (try_form_qc (voted nd) propB Q).1)
                       <$> nodes w0) in
  let qcs_z := concat ((λ nd, option_list (try_form_qc (polled nd) propZ Q).1)
                         <$> nodes w0) in
  ∃ ev w,
    equivocation_demo sha256_hexdigest ids Q view li leader w0
    = Some (mkDemo qcs ev qcs_z, w)
    ∧ ev = collect_evidence
             ((λ nd, perform_all (voted nd)
                       [CallTryFormQC propA Q; CallTryFormQC propB Q]) <$> nodes w0)
    ∧ nodes w = (λ nd, perform_all (polled nd)
                         (CallApplyQCCommit <$> option_list (head qcs_z)))
                  <$> nodes w0
    ∧ proposals_made w = proposals_made w0 ++ [propA; propB; propZ].
Proof.
  intros Hnl tA tB propA propB propZ voted polled qcs qcs_z.
  unfold equivocation_demo, attack_round, new_proposal.
  cbv beta zeta iota. fold tA tB propA propB.
  match goal with
  | |- context [for_each_node (body_try_form_qc [propA; propB] Q) ?W] =>
      set (W1 := W);
      pose proof (for_each_node_qcs (body_try_form_qc [propA; propB] Q) W1) as Hq1;
      pose proof (for_each_node_nodes (body_try_form_qc [propA; propB] Q) W1) as Hn1;
      pose proof (for_each_node_proposals (body_try_form_qc [propA; propB] Q) W1) as Hp1;
      destruct (for_each_node (body_try_form_qc [propA; propB] Q) W1) as [qcs0 w1]
  end.
  cbv beta iota. rewrite Hnl. unfold mbind, option_bind. fold propZ.
  match goal with
  | |- context [for_each_node (body_try_form_qc [propZ] Q) ?W] =>
      set (W2 := W);
      pose proof (for_each_node_qcs (body_try_form_qc [propZ] Q) W2) as Hq2;
      pose proof (for_each_node_nodes (body_try_form_qc [propZ] Q) W2) as Hn2;
      pose proof (for_each_node_proposals (body_try_form_qc [propZ] Q) W2) as Hp2;
      destruct (for_each_node (body_try_form_qc [propZ] Q) W2) as [qcsz w2]
  end.
  cbv beta iota. cbn [fst snd] in Hq1, Hn1, Hp1, Hq2, Hn2, Hp2.
  (* the worlds between the phases *)
  assert (nodes W1 = (λ nd, voted nd) <$> nodes w0
          ∧ proposals_made W1 = proposals_made w0 ++ [propA; propB]) as [HW1n HW1p].
  { unfold W1. rewrite !nodes_voting, !proposals_voting. simpl.
    rewrite <-list_fmap_compose, <-app_assoc. split; [|done].
    apply list_fmap_ext. intros _ nd _. simpl. unfold voted.
    by rewrite perform_all_app, <-!deliver_perform_all. }
  assert (nodes W2 = (λ nd, foldl record_vote nd (signed_vote propZ <$> ids)) <$> nodes w1
          ∧ proposals_made W2 = proposals_made w1 ++ [propZ]) as [HW2n HW2p].
  { unfold W2. rewrite nodes_voting, proposals_voting. simpl.
    destruct qcs0; case_decide; simpl;
      rewrite ?(proj1 (log_lines_frame _ _ _ _)), ?(proj2 (log_lines_frame _ _ _ _));
      done. }
  assert (∀ nd, (body_try_form_qc [propA; propB] Q (voted nd)).1
                = (option_list (try_form_qc (voted nd) propA Q).1
                     ++ option_list (try_form_qc (voted nd) propB Q).1,
                   perform_all (voted nd)
                     [CallTryFormQC propA Q; CallTryFormQC propB Q])) as Hbody1.
  { intros nd. rewrite body_try_form_qc_two. do 3 f_equal.
    apply try_form_qc_fst_votes, try_form_qc_votes. }
  assert (∀ nd, foldl record_vote
                  (perform_all (voted nd) [CallTryFormQC propA Q; CallTryFormQC propB Q])
                  (signed_vote propZ <$> ids)
                = perform_all nd
                    ((CallRecordVote <$> (signed_vote propA <$> tA))
                     ++ (CallRecordVote <$> (signed_vote propB <$> tB))
                     ++ [CallTryFormQC propA Q; CallTryFormQC propB Q]
                     ++ (CallRecordVote <$> (signed_vote propZ <$> ids)))) as Hvz.
  { intros nd. unfold voted.
    by rewrite deliver_perform_all, !app_assoc, !perform_all_app. }
  assert (∀ nd, polled nd
                = perform_all
                    (foldl record_vote
                       (perform_all (voted nd)
                          [CallTryFormQC propA Q; CallTryFormQC propB Q])
                       (signed_vote propZ <$> ids))
                    [CallTryFormQC propZ Q]) as Hpolled.
  { intros nd. rewrite Hvz. unfold polled, demo_calls.
    fold propA propB propZ. by rewrite !app_assoc, !perform_all_app. }
  assert (qcs0 = qcs) as ->.
  { rewrite Hq1, HW1n, <-list_fmap_compose. unfold qcs. f_equal.
    apply list_fmap_ext. intros _ nd _. simpl. by rewrite Hbody1. }
  assert (nodes w1 = (λ nd, perform_all (voted nd)
                              [CallTryFormQC propA Q; CallTryFormQC propB Q])
                       <$> nodes w0) as Hw1n.
  { rewrite Hn1, HW1n, <-list_fmap_compose.
    apply list_fmap_ext. intros _ nd _. simpl. by rewrite Hbody1. }
  assert (qcsz = qcs_z) as ->.
  { rewrite Hq2, HW2n, Hw1n, <-!list_fmap_compose. unfold qcs_z. f_equal.
    apply list_fmap_ext. intros _ nd _. simpl.
    rewrite body_try_form_qc_one, Hpolled. simpl. unfold perform_all. simpl.
    by rewrite try_form_qc_twice. }
  assert (nodes w2 = (λ nd, polled nd) <$> nodes w0) as Hw2n.
  { rewrite Hn2, HW2n, Hw1n, <-!list_fmap_compose.
    apply list_fmap_ext. intros _ nd _. simpl.
    by rewrite body_try_form_qc_one, Hpolled. }
  eexists _, _. split; [reflexivity|]. split.
  - f_equal. by destruct qcs.
  - rewrite (proj1 (log_lines_frame _ _ _ _)), (proj2 (log_lines_frame _ _ _ _)).
    destruct qcs_z as [|qc rest]; simpl.
    + rewrite Hw2n, Hp2, HW2p, Hp1, HW1p, <-app_assoc. split; [|done].
      apply list_fmap_ext. by intros _ nd _.
    + rewrite Hw2n, Hp2, HW2p, Hp1, HW1p, <-app_assoc, <-!list_fmap_compose.
      split; [|done]. apply list_fmap_ext. by intros _ nd _.
Qed.

(** The handler, when the attack type is the equivocation: who leads the
    two views, and the branch it runs. *)
Lemma run_simulation_equivocation N F faulty_leader attack_type :
  String.prefix "Equivocation" attack_type = true →
  (0 < N)%nat →
  let leader := if String.eqb faulty_leader "None" then "A" else faulty_leader in
  let nl := if decide (N = 1%nat) then "A" else "B" in
  let w0 := log (LeaderIs 1 leader) "info"
              (mkWorld (NodeState_init <$> gen_node_ids N) [] [] []) in
  index_mod (gen_node_ids N) (0 + 1) = Some nl
  ∧ ∀ d w, equivocation_demo sha256_hexdigest (gen_node_ids N)
             (2 * Z.of_nat F + 1) 1 0 leader w0 = Some (d, w) →
           run_simulation sha256_hexdigest N F faulty_leader attack_type
           = Some (Some d, log (Text "Simulation complete.") "info" w).
Proof.
  intros Hattack HN leader nl w0. split.
  - unfold nl. destruct N as [|[|n]]; [lia|done|].
    rewrite decide_False by lia.
    unfold gen_node_ids. cbn [seq]. rewrite !fmap_cons. unfold index_mod.
    cbn [length]. rewrite Nat.mod_small by lia. done.
  - intros d w Hdemo. unfold run_simulation. rewrite Hattack.
    assert ((if negb (String.eqb faulty_leader "None") then Some faulty_leader
             else index_mod (gen_node_ids N) 0) = Some leader) as ->.
    { unfold leader. destruct (String.eqb faulty_leader "None"); simpl; [|done].
      destruct N as [|n]; [lia|].
      unfold gen_node_ids. cbn [seq]. rewrite fmap_cons.
      unfold index_mod. by rewrite Nat.Div0.mod_0_l. }
    cbn [mbind option_bind]. fold w0. by rewrite Hdemo.
Qed.

Lemma ingested_record_votes votes : ingested (CallRecordVote <$> votes) = votes.
Proof. induction votes as [|v votes IH]; [done|]. simpl. f_equal. exact IH. Qed.

Lemma ingested_app cs1 cs2 : ingested (cs1 ++ cs2) = ingested cs1 ++ ingested cs2.
Proof. unfold ingested. by rewrite omap_app. Qed.

Lemma ingested_demo_calls view leader nl tA tB tZ Q :
  ingested (demo_calls sha256_hexdigest view leader nl tA tB tZ Q)
  = (signed_vote (mkProposal "X" "GENESIS" view leader) <$> tA)
    ++ (signed_vote (mkProposal "Y" "GENESIS" view leader) <$> tB)
    ++ (signed_vote (mkProposal "Z" "GENESIS" (view + 1) nl) <$> tZ).
Proof.
  unfold demo_calls. rewrite !ingested_app, !ingested_record_votes. simpl.
  by rewrite app_nil_r.
Qed.

Lemma votes_for_fresh nid cs k :
  votes_for (received_votes (perform_all (NodeState_init nid) cs)) k
  = filter (λ vote, proposal_id (proposal vote) = k) (ingested cs).
Proof.
  unfold votes_for. rewrite lookup_perform_all. simpl. rewrite lookup_empty.
  by destruct (filter _ _).
Qed.

Lemma elem_of_signed_votes p (t : list string) vote :
  vote ∈ signed_vote p <$> t → proposal vote = p ∧ voter vote ∈ t.
Proof. intros (v & -> & Hv)%list_elem_of_fmap. by split. Qed.

(** No node gathers evidence in the demo: the two groups of the attack
    round have no validator in common, and the votes for Z are of another
    view. *)
Lemma demo_calls_no_evidence nid view leader nl tA tB tZ Q :
  NoDup (tA ++ tB) →
  evidence (perform_all (NodeState_init nid)
              (demo_calls sha256_hexdigest view leader nl tA tB tZ Q)) = ∅.
Proof.
  intros Hnd. apply leibniz_equiv, elem_of_equiv_empty. intros e He.
  destruct (reachable_origin nid (demo_calls sha256_hexdigest view leader nl tA tB tZ Q))
    as [_ Horigin].
  destruct (Horigin e He) as (i & j & ov & vote & _ & Hi & Hj & Heq & _).
  apply list_elem_of_lookup_2 in Hi, Hj.
  rewrite ingested_demo_calls in Hi, Hj.
  apply NoDup_app in Hnd as (_ & Hdisj & _).
  destruct Heq as (Hvoter & Hview & _ & Hblock).
  rewrite !elem_of_app in Hi, Hj.
  destruct Hi as [Hi|[Hi|Hi]], Hj as [Hj|[Hj|Hj]];
    apply elem_of_signed_votes in Hi as [Hpi Hvi];
    apply elem_of_signed_votes in Hj as [Hpj Hvj];
    rewrite Hpi, Hpj in Hview, Hblock; simpl in Hview, Hblock;
    try done; try lia.
  - rewrite Hvoter in Hvi. by apply (Hdisj (voter vote)).
  - rewrite Hvoter in Hvi. by apply (Hdisj (voter vote)).
Qed.

Lemma collect_evidence_empty (nds : list NodeState) :
  Forall (λ nd, evidence nd = ∅) nds → collect_evidence nds = ∅.
Proof.
  unfold collect_evidence. intros Hall.
  cut (∀ acc : gset Evidence, foldl (λ acc nd, acc ∪ evidence nd) acc nds = acc).
  { intros Hcut. apply Hcut. }
  induction Hall as [|nd nds Hnd _ IH]; intros acc; simpl; [done|].
  rewrite IH, Hnd. apply leibniz_equiv, union_empty_r.
Qed.

Lemma votes_after_voting nid view leader tA tB :
  let propA := mkProposal "X" "GENESIS" view leader in
  let propB := mkProposal "Y" "GENESIS" view leader in
  let s := perform_all (NodeState_init nid)
             ((CallRecordVote <$> (signed_vote propA <$> tA))
              ++ (CallRecordVote <$> (signed_vote propB <$> tB))) in
  votes_for (received_votes s) (proposal_id propA) = signed_vote propA <$> tA
  ∧ votes_for (received_votes s) (proposal_id propB) = signed_vote propB <$> tB.
Proof.
  intros propA propB s. unfold s.
  assert (proposal_id propA ≠ proposal_id propB) as Hne.
  { by apply proposal_id_block_ne. }
  rewrite !votes_for_fresh, ingested_app, !ingested_record_votes, !filter_app,
    !filter_signed_votes.
  repeat case_decide; try done; try congruence.
  by rewrite app_nil_r.
Qed.

Lemma votes_after_demo_calls nid view leader nl tA tB tZ Q :
  let propZ := mkProposal "Z" "GENESIS" (view + 1) nl in
  votes_for (received_votes
               (perform_all (NodeState_init nid)
                  (demo_calls sha256_hexdigest view leader nl tA tB tZ Q)))
            (proposal_id propZ)
  = signed_vote propZ <$> tZ.
Proof.
  intros propZ.
  rewrite votes_for_fresh, ingested_demo_calls, !filter_app, !filter_signed_votes.
  fold propZ.
  rewrite decide_False; [|intros [_ Hv]%proposal_id_inj; simpl in Hv; lia].
  rewrite decide_False; [|intros [_ Hv]%proposal_id_inj; simpl in Hv; lia].
  by rewrite decide_True.
Qed.

Lemma committed_after_demo_calls nid view leader nl tA tB tZ Q :
  committed (perform_all (NodeState_init nid)
               (demo_calls sha256_hexdigest view leader nl tA tB tZ Q)) = [].
Proof.
  apply elem_of_nil_inv. intros b [Hin|(qc & Hin & _)]%elem_of_committed_perform_all.
  - by apply elem_of_nil in Hin.
  - unfold demo_calls in Hin. rewrite !elem_of_app in Hin.
    destruct Hin as [Hin|[Hin|[Hin|[Hin|Hin]]]];
      try (by apply list_elem_of_fmap in Hin as (? & [=] & _)).
    + repeat (apply elem_of_cons in Hin as [[=]|Hin]). by apply elem_of_nil in Hin.
    + apply elem_of_cons in Hin as [[=]|Hin]. by apply elem_of_nil in Hin.
Qed.

Lemma commit_list_frame s (o : option QC) :
  let s' := perform_all s (CallApplyQCCommit <$> option_list o) in
  received_votes s' = received_votes s ∧ evidence s' = evidence s
  ∧ highest_qc s' = highest_qc s.
Proof.
  destruct o as [qc|]; simpl; [|done].
  by destruct (apply_qc_commit_frame s qc) as (_ & -> & -> & ->).
Qed.

Lemma concat_fmap_nil {A B} (f : A → list B) (l : list A) :
  concat (f <$> l) = [] ↔ Forall (λ x, f x = []) l.
Proof.
  induction l as [|x l IH]; [by split|].
  rewrite fmap_cons, Forall_cons, <-IH. simpl. split.
  - by intros [? ?]%app_eq_nil.
  - by intros [-> ->].
Qed.

(** A run of the equivocation branch, node by node. *)
Lemma run_simulation_demo N F faulty_leader attack_type :
  String.prefix "Equivocation" attack_type = true →
  (0 < N)%nat →
  let leader := if String.eqb faulty_leader "None" then "A" else faulty_leader in
  let nl := if decide (N = 1%nat) then "A" else "B" in
  let ids := gen_node_ids N in
  let Q := 2 * Z.of_nat F + 1 in
  let tA := take (length ids / 2) ids in
  let tB := drop (length ids / 2) ids in
  let propA := mkProposal "X" "GENESIS" 1 leader in
  let propB := mkProposal "Y" "GENESIS" 1 leader in
  let propZ := mkProposal "Z" "GENESIS" 2 nl in
  let voted nid :=
    perform_all (NodeState_init nid)
      ((CallRecordVote <$> (signed_vote propA <$> tA))
       ++ (CallRecordVote <$> (signed_vote propB <$> tB))) in
  let polled nid :=
    perform_all (NodeState_init nid)
      (demo_calls sha256_hexdigest 1 leader nl tA tB ids Q) in
  let qcs := concat ((λ nid, option_list (try_form_qc (voted nid) propA Q).1
                             ++ option_list (try_form_qc (voted nid) propB Q).1)
                       <$> ids) in
  let qcs_z := concat ((λ nid, option_list (try_form_qc (polled nid) propZ Q).1)
                         <$> ids) in
  ∃ ev w,
    run_simulation sha256_hexdigest N F faulty_leader attack_type
    = Some (Some (mkDemo qcs ev qcs_z), w)
    ∧ ev = collect_evidence
             ((λ nid, perform_all (voted nid)
                        [CallTryFormQC propA Q; CallTryFormQC propB Q]) <$> ids)
    ∧ nodes w = (λ nid, perform_all (polled nid)
                          (CallApplyQCCommit <$> option_list (head qcs_z)))
                  <$> ids
    ∧ proposals_made w = [propA; propB; propZ].
Proof.
  intros Hattack HN leader nl ids Q tA tB propA propB propZ voted polled qcs qcs_z.
  destruct (run_simulation_equivocation N F faulty_leader attack_type Hattack HN)
    as [Hnl Hrun].
  destruct (equivocation_demo_shape ids Q 1 0 leader nl
              (log (LeaderIs 1 leader) "info"
                 (mkWorld (NodeState_init <$> ids) [] [] [])) Hnl)
    as (ev & w & Hdemo & Hev & Hnodes & Hprops).
  apply Hrun in Hdemo.
  cbn [nodes log proposals_made app] in Hdemo, Hev, Hnodes, Hprops.
  rewrite <-!(list_fmap_compose NodeState_init) in Hdemo.
  rewrite <-!(list_fmap_compose NodeState_init) in Hev.
  rewrite <-!(list_fmap_compose NodeState_init) in Hnodes.
  exists ev, (log (Text "Simulation complete.") "info" w).
  split; [exact Hdemo|]. split; [exact Hev|]. split; [exact Hnodes|exact Hprops].
Qed.

Lemma perform_same s s' c :
  same_protocol_state s s' → same_protocol_state (perform s c) (perform s' c).
Proof.
  destruct s as [i rv ev cm hq], s' as [i' rv' ev' cm' hq'].
  intros (Hrv & Hev & Hcm & Hhq). simpl in *. subst rv' ev' cm' hq'.
  destruct c as [vote|p Q|qc]; unfold perform.
  - done.
  - unfold try_form_qc. simpl. destruct (Q <=? _); done.
  - unfold apply_qc_commit. simpl. destruct (in_committed _ _); done.
Qed.

Lemma perform_all_same cs s s' :
  same_protocol_state s s' →
  same_protocol_state (perform_all s cs) (perform_all s' cs).
Proof.
  revert s s'. induction cs as [|c cs IH]; intros s s' Hsame; [done|].
  simpl. by apply IH, perform_same.
Qed.

Lemma perform_all_node_id cs s : node_id (perform_all s cs) = node_id s.
Proof.
  revert s. induction cs as [|c cs IH]; intros s; [done|].
  simpl. rewrite IH. destruct c as [vote|p Q|qc]; unfold perform; [done|..].
  - by destruct (try_form_qc_frame s p Q) as (-> & _).
  - by destruct (apply_qc_commit_frame s qc) as (-> & _).
Qed.

(** X11. The demo never produces evidence, whatever the number of
    validators, the fault bound and the leader: for every run of the
    equivocation branch with at least one validator, the run ends
    normally, the evidence collected by the driver is empty and so is the
    evidence of every node at the end.  (The leader equivocates; no
    validator votes twice in a view.) *)
Theorem demo_finds_no_evidence (N F : nat) (faulty_leader attack_type : string) :
  String.prefix "Equivocation" attack_type = true →
  (0 < N)%nat →
  ∃ d w,
    run_simulation sha256_hexdigest N F faulty_leader attack_type = Some (Some d, w)
    ∧ demo_evidence d = ∅
    ∧ Forall (λ nd, evidence nd = ∅) (nodes w).
Proof.
  intros Hattack HN.
  destruct (run_simulation_demo N F faulty_leader attack_type Hattack HN)
    as (ev & w & Hrun & Hev & Hnodes & _).
  eexists _, w. split; [exact Hrun|]. cbn [demo_evidence].
  set (ids := gen_node_ids N) in *.
  assert (NoDup (take (length ids / 2) ids ++ drop (length ids / 2) ids)) as Hnd.
  { rewrite take_drop. apply gen_node_ids_NoDup. }
  split.
  - rewrite Hev. apply collect_evidence_empty, Forall_fmap, Forall_true.
    intros nid. simpl.
    apply leibniz_equiv, elem_of_equiv_empty. intros e He.
    apply (not_elem_of_empty (C:=gset Evidence) e).
    rewrite <-(demo_calls_no_evidence nid 1
                 (if String.eqb faulty_leader "None" then "A" else faulty_leader)
                 (if decide (N = 1%nat) then "A" else "B")
                 _ _ ids (2 * Z.of_nat F + 1) Hnd).
    unfold demo_calls. rewrite app_assoc, perform_all_app.
    rewrite (perform_all_app _ [_; _]).
    apply perform_all_evidence_subseteq. exact He.
  - rewrite Hnodes. apply Forall_fmap, Forall_true. intros nid. simpl.
    rewrite (proj1 (proj2 (commit_list_frame _ _))).
    by apply demo_calls_no_evidence.
Qed.

(** X12. When the split fails to protect: in a run of the equivocation
    branch with [N ≥ 1] validators the attack round forms no QC exactly
    when the larger group, of [N - N/2] validators, is smaller than the
    quorum [2F+1]; and when even the smaller group, of [N/2], reaches the
    quorum, QCs for both X and Y, two blocks of the same view, are formed
    (N = 7, F = 1 is such a case). *)
Theorem demo_round_one_qcs (N F : nat) (faulty_leader attack_type : string) :
  String.prefix "Equivocation" attack_type = true →
  (0 < N)%nat →
  ∃ d w,
    run_simulation sha256_hexdigest N F faulty_leader attack_type = Some (Some d, w)
    ∧ (demo_qcs d = [] ↔ Z.of_nat (N - N / 2) < 2 * Z.of_nat F + 1)
    ∧ (2 * Z.of_nat F + 1 ≤ Z.of_nat (N / 2) →
       ∃ qx qy, qx ∈ demo_qcs d ∧ qy ∈ demo_qcs d
                ∧ block_id (qc_proposal qx) = "X"
                ∧ block_id (qc_proposal qy) = "Y"
                ∧ view (qc_proposal qx) = view (qc_proposal qy)).
Proof.
  intros Hattack HN.
  destruct (run_simulation_demo N F faulty_leader attack_type Hattack HN)
    as (ev & w & Hrun & _).
  eexists _, w. split; [exact Hrun|]. cbn [demo_qcs].
  set (leader := if String.eqb faulty_leader "None" then "A" else faulty_leader).
  set (ids := gen_node_ids N).
  set (Q := 2 * Z.of_nat F + 1).
  set (tA := take (length ids / 2) ids). set (tB := drop (length ids / 2) ids).
  set (propA := mkProposal "X" "GENESIS" 1 leader).
  set (propB := mkProposal "Y" "GENESIS" 1 leader).
  assert (length ids = N) as Hlen.
  { unfold ids, gen_node_ids. by rewrite length_fmap, length_seq. }
  assert (length tA = (N / 2)%nat) as HlenA.
  { unfold tA. rewrite length_take, Hlen. apply Nat.min_l.
    apply Nat.Div0.div_le_upper_bound. lia. }
  assert (length tB = (N - N / 2)%nat) as HlenB.
  { unfold tB. by rewrite length_drop, Hlen. }
  assert (N / 2 ≤ N - N / 2)%nat as Hhalf.
  { pose proof (Nat.Div0.mul_div_le N 2). lia. }
  assert (∀ nid,
            (try_form_qc
               (perform_all (NodeState_init nid)
                  ((CallRecordVote <$> (signed_vote propA <$> tA))
                   ++ (CallRecordVote <$> (signed_vote propB <$> tB)))) propA Q).1
            = (if Q <=? Z.of_nat (N / 2)
               then Some (mkQC propA (sorted_strs (voter <$> slice_to (signed_vote propA <$> tA) Q)))
               else None)
            ∧ (try_form_qc
                 (perform_all (NodeState_init nid)
                    ((CallRecordVote <$> (signed_vote propA <$> tA))
                     ++ (CallRecordVote <$> (signed_vote propB <$> tB)))) propB Q).1
              = (if Q <=? Z.of_nat (N - N / 2)
                 then Some (mkQC propB (sorted_strs (voter <$> slice_to (signed_vote propB <$> tB) Q)))
                 else None)) as Hpoll.
  { intros nid.
    destruct (votes_after_voting nid 1 leader tA tB) as [HvA HvB].
    fold propA propB in HvA, HvB.
    rewrite !try_form_qc_fst, HvA, HvB, !length_fmap, HlenA, HlenB. done. }
  destruct ids as [|nid0 ids'] eqn:Hids; [simpl in Hlen; lia|].
  rewrite <-Hids. split.
  - rewrite concat_fmap_nil. split.
    + intros Hall. rewrite Hids in Hall. apply Forall_cons in Hall as [H0 _].
      apply app_eq_nil in H0 as [_ HB].
      rewrite (proj2 (Hpoll nid0)) in HB.
      destruct (Z.leb_spec Q (Z.of_nat (N - N / 2))); [done|lia].
    + intros Hlt. apply Forall_true. intros nid.
      rewrite (proj1 (Hpoll nid)), (proj2 (Hpoll nid)).
      rewrite !(proj2 (Z.leb_gt _ _)) by lia. done.
  - intros Hle.
    exists (mkQC propA (sorted_strs (voter <$> slice_to (signed_vote propA <$> tA) Q))),
           (mkQC propB (sorted_strs (voter <$> slice_to (signed_vote propB <$> tB) Q))).
    split_and!; [| |done..].
    + rewrite Hids, fmap_cons. simpl. rewrite (proj1 (Hpoll nid0)).
      rewrite (proj2 (Z.leb_le _ _)) by lia. simpl. left.
    + rewrite Hids, fmap_cons. simpl. rewrite (proj2 (Hpoll nid0)).
      rewrite (proj2 (Z.leb_le _ _)) by lia. simpl.
      apply elem_of_app. left. apply elem_of_app. right. left.
Qed.

(** X13. The safe round, for any number of validators: in a run of the
    equivocation branch with [N ≥ 1] validators, when the quorum [2F+1] is
    at most [N] every node forms a QC for Z and ends with exactly [Z]
    committed, whatever happened in the attack round; when the quorum
    exceeds [N], no QC for Z is formed and no node commits anything. *)
Theorem demo_commit_outcome (N F : nat) (faulty_leader attack_type : string) :
  String.prefix "Equivocation" attack_type = true →
  (0 < N)%nat →
  ∃ d w,
    run_simulation sha256_hexdigest N F faulty_leader attack_type = Some (Some d, w)
    ∧ length (nodes w) = N
    ∧ (2 * Z.of_nat F + 1 ≤ Z.of_nat N →
       length (demo_qcs_z d) = N
       ∧ Forall (λ qc, block_id (qc_proposal qc) = "Z" ∧ view (qc_proposal qc) = 2)
                (demo_qcs_z d)
       ∧ Forall (λ nd, committed nd = ["Z"]) (nodes w))
    ∧ (Z.of_nat N < 2 * Z.of_nat F + 1 →
       demo_qcs_z d = [] ∧ Forall (λ nd, committed nd = []) (nodes w)).
Proof.
  intros Hattack HN.
  destruct (run_simulation_demo N F faulty_leader attack_type Hattack HN)
    as (ev & w & Hrun & _ & Hnodes & _).
  eexists _, w. split; [exact Hrun|]. cbn [demo_qcs_z].
  set (leader := if String.eqb faulty_leader "None" then "A" else faulty_leader) in *.
  set (nl := if decide (N = 1%nat) then "A" else "B") in *.
  set (ids := gen_node_ids N) in *.
  set (Q := 2 * Z.of_nat F + 1) in *.
  set (tA := take (length ids / 2) ids) in *.
  set (tB := drop (length ids / 2) ids) in *.
  set (propZ := mkProposal "Z" "GENESIS" 2 nl) in *.
  set (qcZ := mkQC propZ (sorted_strs (voter <$> slice_to (signed_vote propZ <$> ids) Q))).
  assert (length ids = N) as Hlen.
  { unfold ids, gen_node_ids. by rewrite length_fmap, length_seq. }
  assert (∀ nid, (try_form_qc (perform_all (NodeState_init nid)
       (demo_calls sha256_hexdigest 1 leader nl tA tB ids Q)) propZ Q).1
                 = if Q <=? Z.of_nat N then Some qcZ else None) as Hpoll.
  { intros nid.
    pose proof (votes_after_demo_calls nid 1 leader nl tA tB ids Q) as Hv.
    change (1 + 1) with 2 in Hv. fold propZ in Hv.
    by rewrite try_form_qc_fst, Hv, length_fmap, Hlen. }
  split; [by rewrite Hnodes, length_fmap|].
  split.
  - intros HQ.
    assert (concat ((λ nid, option_list (try_form_qc (perform_all (NodeState_init nid)
       (demo_calls sha256_hexdigest 1 leader nl tA tB ids Q)) propZ Q).1) <$> ids)
            = replicate (length ids) qcZ) as Hqz.
    { rewrite (list_fmap_ext _ (λ _, [qcZ]) ids).
      - generalize ids. intros l. induction l as [|x l IH]; [done|].
        rewrite fmap_cons. simpl. by rewrite IH.
      - intros _ nid _. by rewrite Hpoll, (proj2 (Z.leb_le _ _)). }
    rewrite Hqz in *. rewrite length_replicate. split; [done|]. split.
    + apply Forall_replicate. by split.
    + rewrite Hnodes. apply Forall_fmap, Forall_true. intros nid. simpl.
      destruct ids as [|nid0 ids']; [simpl in Hlen; lia|]. simpl.
      unfold apply_qc_commit. by rewrite committed_after_demo_calls.
  - intros HQ.
    assert (concat ((λ nid, option_list (try_form_qc (perform_all (NodeState_init nid)
       (demo_calls sha256_hexdigest 1 leader nl tA tB ids Q)) propZ Q).1) <$> ids)
            = []) as Hqz.
    { apply concat_fmap_nil, Forall_true. intros nid.
      by rewrite Hpoll, (proj2 (Z.leb_gt _ _)). }
    rewrite Hqz in *. split; [done|].
    rewrite Hnodes. apply Forall_fmap, Forall_true. intros nid. simpl.
    apply committed_after_demo_calls.
Qed.

(** X14. Who proposes what: a run of the equivocation branch with
    [N ≥ 1] validators constructs exactly three proposals, X and Y for
    view 1 by the chosen leader (validator A when none is chosen), and Z
    for view 2 by the second validator B (by A when there is only one).
    The view change does not look at who the faulty leader was: when B is
    the faulty leader, B proposes Z as well. *)
Theorem demo_proposals (N F : nat) (faulty_leader attack_type : string) :
  String.prefix "Equivocation" attack_type = true →
  (0 < N)%nat →
  ∃ d w,
    run_simulation sha256_hexdigest N F faulty_leader attack_type = Some (Some d, w)
    ∧ proposals_made w
      = let leader := if String.eqb faulty_leader "None" then "A" else faulty_leader in
        let new_leader := if decide (N = 1%nat) then "A" else "B" in
        [mkProposal "X" "GENESIS" 1 leader; mkProposal "Y" "GENESIS" 1 leader;
         mkProposal "Z" "GENESIS" 2 new_leader].
Proof.
  intros Hattack HN.
  destruct (run_simulation_demo N F faulty_leader attack_type Hattack HN)
    as (ev & w & Hrun & _ & _ & Hprops).
  eexists _, w. split; [exact Hrun|exact Hprops].
Qed.

(** X15. All nodes end alike: after a run of the equivocation branch with
    [N ≥ 1] validators there is one node per id of [gen_node_ids N], in
    that order, and any two nodes hold the same votes, the same evidence,
    the same committed list and the same highest QC. *)
Theorem demo_nodes_agree (N F : nat) (faulty_leader attack_type : string) :
  String.prefix "Equivocation" attack_type = true →
  (0 < N)%nat →
  ∃ d w,
    run_simulation sha256_hexdigest N F faulty_leader attack_type = Some (Some d, w)
    ∧ node_id <$> nodes w = gen_node_ids N
    ∧ ∀ nd nd', nd ∈ nodes w → nd' ∈ nodes w → same_protocol_state nd nd'.
Proof.
  intros Hattack HN.
  destruct (run_simulation_demo N F faulty_leader attack_type Hattack HN)
    as (ev & w & Hrun & _ & Hnodes & _).
  eexists _, w. split; [exact Hrun|]. rewrite Hnodes. split.
  - rewrite <-list_fmap_compose. rewrite <-(list_fmap_id (gen_node_ids N)) at 2.
    apply list_fmap_ext. intros _ nid _. simpl.
    by rewrite !perform_all_node_id.
  - intros nd nd' (nid & -> & _)%list_elem_of_fmap (nid' & -> & _)%list_elem_of_fmap.
    apply perform_all_same, perform_all_same. done.
Qed.

End DemoFacts.

Lemma demo_finds_no_evidence_witness :
  ∃ d w,
    run_simulation (λ _, "9f86d081884c7d65") 5 1 "C" "Equivocation (split proposals)"
    = Some (Some d, w)
    ∧ demo_evidence d = ∅
    ∧ Forall (λ nd, evidence nd = ∅) (nodes w).
Proof.
  apply (demo_finds_no_evidence (λ _, "9f86d081884c7d65") 5 1 "C"
           "Equivocation (split proposals)"); [reflexivity|lia].
Defined.

Lemma demo_round_one_qcs_witness :
  ∃ d w,
    run_simulation (λ _, "9f86d081884c7d65") 7 1 "A" "Equivocation (split proposals)"
    = Some (Some d, w)
    ∧ (demo_qcs d = [] ↔ Z.of_nat (7 - 7 / 2) < 2 * Z.of_nat 1 + 1)
    ∧ ∃ qx qy, qx ∈ demo_qcs d ∧ qy ∈ demo_qcs d
               ∧ block_id (qc_proposal qx) = "X"
               ∧ block_id (qc_proposal qy) = "Y"
               ∧ view (qc_proposal qx) = view (qc_proposal qy).
Proof.
  destruct (demo_round_one_qcs (λ _, "9f86d081884c7d65") 7 1 "A"
              "Equivocation (split proposals)" eq_refl ltac:(lia))
    as (d & w & Hrun & Hnone & Hboth).
  exists d, w. split; [exact Hrun|]. split; [exact Hnone|].
  apply Hboth. simpl. lia.
Defined.

Lemma demo_commit_outcome_witness :
  ∃ d w,
    run_simulation (λ _, "9f86d081884c7d65") 5 1 "C" "Equivocation (split proposals)"
    = Some (Some d, w)
    ∧ length (nodes w) = 5%nat
    ∧ length (demo_qcs_z d) = 5%nat
    ∧ Forall (λ qc, block_id (qc_proposal qc) = "Z" ∧ view (qc_proposal qc) = 2)
             (demo_qcs_z d)
    ∧ Forall (λ nd, committed nd = ["Z"]) (nodes w).
Proof.
  destruct (demo_commit_outcome (λ _, "9f86d081884c7d65") 5 1 "C"
              "Equivocation (split proposals)" eq_refl ltac:(lia))
    as (d & w & Hrun & Hlen & Hquorum & _).
  exists d, w. split; [exact Hrun|]. split; [exact Hlen|].
  apply Hquorum. simpl. lia.
Defined.

Lemma demo_proposals_witness :
  ∃ d w,
    run_simulation (λ _, "9f86d081884c7d65") 5 1 "B" "Equivocation (split proposals)"
    = Some (Some d, w)
    ∧ proposals_made w
      = [mkProposal "X" "GENESIS" 1 "B"; mkProposal "Y" "GENESIS" 1 "B";
         mkProposal "Z" "GENESIS" 2 "B"].
Proof.
  apply (demo_proposals (λ _, "9f86d081884c7d65") 5 1 "B"
           "Equivocation (split proposals)"); [reflexivity|lia].
Defined.

Lemma demo_nodes_agree_witness :
  ∃ d w,
    run_simulation (λ _, "9f86d081884c7d65") 5 1 "C" "Equivocation (split proposals)"
    = Some (Some d, w)
    ∧ node_id <$> nodes w = gen_node_ids 5
    ∧ ∀ nd nd', nd ∈ nodes w → nd' ∈ nodes w → same_protocol_state nd nd'.
Proof.
  apply (demo_nodes_agree (λ _, "9f86d081884c7d65") 5 1 "C"
           "Equivocation (split proposals)"); [reflexivity|lia].
Defined.

(** X16. The only way a run ends in an exception: [run_simulation] raises
    (the [ZeroDivisionError] of indexing an empty [NODE_IDS]) exactly when
    there is no validator and either no faulty leader is chosen or the
    attack is the equivocation; with at least one validator every run
    ends normally. *)
Theorem run_simulation_raises (sha : string → string) (N F : nat)
    (faulty_leader attack_type : string) :
  run_simulation sha N F faulty_leader attack_type = None ↔
  N = 0%nat
  ∧ (faulty_leader = "None" ∨ String.prefix "Equivocation" attack_type = true).
Proof.
  destruct N as [|n].
  - unfold run_simulation. simpl gen_node_ids.
    destruct (String.eqb_spec faulty_leader "None") as [->|Hfl]; simpl negb.
    + split; [intros _|done]. split; [done|by left].
    + cbn [mbind option_bind].
      destruct (String.prefix "Equivocation" attack_type) eqn:Hattack.
      * split; [intros _|done]. split; [done|by right].
      * split; [|by intros [_ [?|?]]].
        by destruct (String.prefix "Withhold QC" attack_type).
  - split; [|intros [? _]; lia]. intros Hnone. exfalso.
    destruct (String.prefix "Equivocation" attack_type) eqn:Hattack.
    + destruct (run_simulation_demo sha (S n) F faulty_leader attack_type Hattack
                  ltac:(lia)) as (ev & w & Hrun & _).
      congruence.
    + revert Hnone. unfold run_simulation. rewrite Hattack.
      assert (∃ leader,
                (if negb (String.eqb faulty_leader "None") then Some faulty_leader
                 else index_mod (gen_node_ids (S n)) 0) = Some leader)
        as [leader ->].
      { destruct (negb _); [by eexists|]. exists "A".
        unfold gen_node_ids. cbn [seq]. rewrite fmap_cons.
        unfold index_mod. by rewrite Nat.Div0.mod_0_l. }
      cbn [mbind option_bind].
      by destruct (String.prefix "Withhold QC" attack_type).
Qed.

(** ** Two edge cases of the node operations *)

(** X17. An evidence entry never pairs a proposal id with itself: at a
    node that started empty, after any sequence of calls, the two ids of
    every entry are different. *)
Theorem evidence_ids_differ (nid : string) (cs : list Call) (a p q : string) :
  (a, p, q) ∈ evidence (perform_all (NodeState_init nid) cs) → p ≠ q.
Proof.
  intros Hin. destruct (reachable_origin nid cs) as [_ Horigin].
  destruct (Horigin _ Hin) as (i & j & ov & vote & _ & _ & _ & Heq & [= _ -> ->]).
  destruct Heq as (_ & Hview & _ & Hblock). by apply proposal_id_block_ne.
Qed.

Lemma evidence_ids_differ_witness : "X@v1" ≠ "Y@v1".
Proof.
  apply (evidence_ids_differ "B" [CallRecordVote vote_C_X; CallRecordVote vote_C_Y] "C").
  by_evaluation.
Defined.

(** X18. A quorum of zero or less is always met: for [Q ≤ 0]
    [try_form_qc] returns a QC on every node and for every proposal, also
    when no vote was recorded; the QC names no voter when [Q = 0], and for
    [Q < 0] one voter per stored vote but the last [-Q] (the slice
    [votes[:Q]]). *)
Theorem try_form_qc_nonpositive_quorum (s : NodeState) (p : Proposal) (Q : Z) :
  Q ≤ 0 →
  ∃ qc, (try_form_qc s p Q).1 = Some qc
        ∧ qc_proposal qc = p
        ∧ length (qc_voters qc)
          = if decide (Q = 0) then 0%nat
            else Z.to_nat (Z.of_nat (length (votes_for (received_votes s)
                                               (proposal_id p))) + Q).
Proof.
  intros HQ. rewrite try_form_qc_fst, (proj2 (Z.leb_le _ _)) by lia.
  eexists. split; [done|]. split; [done|]. simpl.
  unfold sorted_strs. rewrite merge_sort_Permutation, length_fmap.
  unfold slice_to. destruct (Z.ltb_spec Q 0) as [Hneg|Hzero].
  - rewrite decide_False by lia. rewrite length_take. lia.
  - assert (Q = 0) as -> by lia. by rewrite decide_True.
Qed.

Lemma try_form_qc_nonpositive_quorum_witness :
  ∃ qc, (try_form_qc (NodeState_init "B") (proposal vote_C_X) 0).1 = Some qc
        ∧ qc_proposal qc = proposal vote_C_X
        ∧ length (qc_voters qc) = 0%nat.
Proof.
  apply (try_form_qc_nonpositive_quorum (NodeState_init "B") (proposal vote_C_X) 0).
  lia.
Defined.
